(** * MFDFA.singspect: Hurst exponents, scaling exponents, singularity spectrum

    A shallow embedding of [src/MFDFA/singspect.py].

    - A float64 array is a list of Rocq's primitive binary64 floats, so the
      arithmetic of the Python code ([*], [-], [/], [<], [>]) is the IEEE 754
      arithmetic numpy performs, bit for bit.
    - A Python exception is the [Error] branch of a result monad; the monad's
      bind is Python's sequencing, the first raise ends the call.
    - The numpy routines with a closed definition (slicing, indexing,
      [asarray_chkfinite], broadcasting, [gradient]) are written out in
      [Module np].  [np.log] and [numpy.polynomial.polynomial.polyfit] are
      parameters: every theorem holds whatever they compute.
    - [lag] is a one-dimensional array of ints, [mfdfa] a two-dimensional array
      of floats, [q] an array of floats of any shape, [lim] a pair of entries
      that are None or an int, [interpolate] an int. *)

From Stdlib Require Import List ZArith Lia Bool Floats.
Import ListNotations.

Set Warnings "-inexact-float".

(* ================================================================== *)
(** * Exceptions and the result monad *)

(** The exceptions the module can let escape, by the place that raises. *)
Inductive exn : Type :=
| ValueError_nonfinite   (* np.asarray_chkfinite: array must not contain infs or NaNs *)
| ValueError_dimension   (* _slopes: Fluctuation function and q powers don't match in dimension. *)
| ValueError_gradient    (* np.gradient: fewer than edge_order + 1 elements *)
| ValueError_broadcast   (* operands could not be broadcast together *)
| IndexError             (* integer index out of bounds *)
| PolyfitError.          (* anything polyfit raises *)

Inductive result (A : Type) : Type :=
| OK (a : A)
| Error (e : exn).

Arguments OK {A} a.
Arguments Error {A} e.

Definition bind {A B : Type} (m : result A) (k : A -> result B) : result B :=
  match m with
  | OK a => k a
  | Error e => Error e
  end.

Notation "x <- m ;; k" := (bind m (fun x => k))
  (at level 61, m at next level, right associativity).

(** Run [f] on every element, left to right, stopping at the first raise. *)
Fixpoint mapM {A B : Type} (f : A -> result B) (l : list A) : result (list B) :=
  match l with
  | [] => OK []
  | a :: l' => b <- f a ;; bs <- mapM f l' ;; OK (b :: bs)
  end.

(* ================================================================== *)
(** * The numpy operations the module uses *)

Module np.

(** An array of float64 of any shape: its shape and its entries in
    row-major (C) order. *)
Record ndarray : Type := mk_ndarray { shape : list nat; data : list float }.

(** A one-dimensional array is the list of its entries. *)
Definition array1d (l : list float) : ndarray :=
  {| shape := [length l]; data := l |}.

(** A two-dimensional array: [shape = (length rows, ncols)]. *)
Record matrix : Type := mk_matrix { ncols : nat; rows : list (list float) }.

(** [len(a)] and [a.shape[0]]: the extent of the first axis. *)
Definition len (a : ndarray) : nat := hd 0%nat (shape a).

(** [np.isfinite]: neither NaN nor an infinity. *)
Definition isfinite (x : float) : bool := PrimFloat.is_finite x.

(** [np.asarray_chkfinite(a, dtype=float)] on a float array: the array
    itself, or ValueError when an entry is NaN or infinite. *)
Definition asarray_chkfinite (a : ndarray) : result ndarray :=
  if forallb isfinite (data a) then OK a else Error ValueError_nonfinite.

(** Casting an int64 entry to float64 (round to nearest even). *)
Definition float_of_int (z : Z) : float :=
  SF2Prim (binary_normalize prec emax z 0 false).

(** Python slice bounds [lo:hi] (step 1) over a sequence of length [n]:
    None is the matching end, a negative bound counts from the end, and
    both are clamped to [0, n]. *)
Definition slice_index (n : nat) (dflt : Z) (b : option Z) : nat :=
  match b with
  | None => Z.to_nat dflt
  | Some z =>
      if (z <? 0)%Z then Z.to_nat (Z.max (z + Z.of_nat n) 0)
      else Z.to_nat (Z.min z (Z.of_nat n))
  end.

Definition slice {A : Type} (lo hi : option Z) (l : list A) : list A :=
  let n := length l in
  let start := slice_index n 0 lo in
  let stop := slice_index n (Z.of_nat n) hi in
  firstn (stop - start) (skipn start l).

(** [a[i]] for a Python or numpy integer index: negative indices count
    from the end, out of range raises IndexError. *)
Definition getitem {A : Type} (l : list A) (i : Z) : result A :=
  let n := Z.of_nat (length l) in
  let j := if (i <? 0)%Z then (i + n)%Z else i in
  if ((0 <=? j) && (j <? n))%Z then
    match nth_error l (Z.to_nat j) with
    | Some a => OK a
    | None => Error IndexError
    end
  else Error IndexError.

(** [m[lo:hi, i]]: column [i] of the rows selected by the slice. *)
Definition slice_column (lo hi : option Z) (i : nat) (m : matrix)
  : result (list float) :=
  if (i <? ncols m)%nat
  then OK (map (fun r => nth i r 0%float) (slice lo hi (rows m)))
  else Error IndexError.

(** Element-wise binary operation on two one-dimensional arrays with
    numpy's broadcasting: equal lengths pair up, a length-one operand is
    stretched, anything else raises. *)
Fixpoint zip_with {A B C : Type} (f : A -> B -> C) (a : list A) (b : list B)
  : list C :=
  match a, b with
  | x :: a', y :: b' => f x y :: zip_with f a' b'
  | _, _ => []
  end.

Definition broadcast (f : float -> float -> float) (a b : list float)
  : result (list float) :=
  if (length a =? length b)%nat then OK (zip_with f a b)
  else match a, b with
       | [x], _ => OK (map (fun y => f x y) b)
       | _, [y] => OK (map (fun x => f x y) a)
       | _, _ => Error ValueError_broadcast
       end.

Definition multiply := broadcast PrimFloat.mul.
Definition subtract := broadcast PrimFloat.sub.
Definition divide := broadcast PrimFloat.div.

(** [np.gradient(f)] on a one-dimensional array with the default unit
    spacing and [edge_order=1].  numpy computes
      out[1:-1] = (f[2:] - f[:-2]) / (2. * dx)
      out[0]    = (f[1] - f[0]) / dx
      out[-1]   = (f[-1] - f[-2]) / dx
    with dx = 1.0, and raises ValueError below two elements. *)
Definition dx : float := 1%float.

Definition gradient_at (f : list float) (i : nat) : float :=
  let n := length f in
  let at_ k := nth k f 0%float in
  if (i =? 0)%nat then ((at_ 1%nat - at_ 0%nat) / dx)%float
  else if (i =? n - 1)%nat then ((at_ (n - 1)%nat - at_ (n - 2)%nat) / dx)%float
  else ((at_ (i + 1)%nat - at_ (i - 1)%nat) / (2 * dx))%float.

Definition gradient (f : list float) : result (list float) :=
  if (length f <? 2)%nat then Error ValueError_gradient
  else OK (map (gradient_at f) (seq 0 (length f))).

End np.

(* ================================================================== *)
(** * singspect.py *)

(** A fit range [lim]: a pair of optional indices, [None] being Python's. *)
Definition limits : Type := (option Z * option Z)%type.

(** The mask of line 389, [(q < -.1) + (q > .1)], on one entry; [+] on
    boolean arrays is the logical or. *)
Definition keep_q (v : float) : bool := ((v <? - 0.1) || (0.1 <? v))%float.

(** [_clean_q], lines 383-394.  [np.float] is the alias of Python's float
    that numpy shipped when the module was written, so the dtype is float64;
    indexing by a boolean mask already yields a flat array, in row-major
    order, which [flatten] copies. *)
Definition _clean_q (q : np.ndarray) : result (list float) :=
  q <- np.asarray_chkfinite q ;;
  OK (filter keep_q (np.data q)).

Section Singspect.

(** [np.log] on one float64 entry. *)
Variable np_log : float -> float.

(** [polyfit(x, y, deg)]: the coefficients, lowest degree first, or [None]
    when it raises. *)
Variable polyfit : list float -> list float -> Z -> option (list float).

(** The substitution that opens the three public functions
    (lines 65-67, 145-147, 210-212): [lim = [1, lag.size//2]]. *)
Definition default_lim (lag : list Z) (lim : limits) : limits :=
  match lim with
  | (None, None) => (Some 1%Z, Some (Z.of_nat (length lag) / 2)%Z)
  | _ => lim
  end.

(** The substitution that opens [_slopes] (lines 235-237):
    [lim = [lag[1], lag[lag.size//2]]]. *)
Definition default_lim_slopes (lag : list Z) (lim : limits) : result limits :=
  match lim with
  | (None, None) =>
      lo <- np.getitem lag 1%Z ;;
      hi <- np.getitem lag (Z.of_nat (length lag) / 2)%Z ;;
      OK (Some lo, Some hi)
  | _ => OK lim
  end.

(** The two arrays handed to polyfit for column [i] (lines 257-258). *)
Definition fit_x (lag : list Z) (lim : limits) : list float :=
  map np_log (map np.float_of_int (np.slice (fst lim) (snd lim) lag)).

Definition fit_y (mfdfa : np.matrix) (lim : limits) (i : nat)
  : result (list float) :=
  col <- np.slice_column (fst lim) (snd lim) i mfdfa ;;
  OK (map np_log col).

(** One turn of the loop of [_slopes] (lines 256-260): [polyfit(...)[1]]. *)
Definition fit_slope (lag : list Z) (mfdfa : np.matrix) (lim : limits)
  (i : nat) : result float :=
  let x := fit_x lag lim in
  y <- fit_y mfdfa lim i ;;
  match polyfit x y 1%Z with
  | None => Error PolyfitError
  | Some coef => np.getitem coef 1%Z
  end.

(** [_slopes], lines 223-262. *)
Definition _slopes (lag : list Z) (mfdfa : np.matrix) (q : np.ndarray)
  (lim : limits) (interpolate : Z) : result (list float) :=
  lim <- default_lim_slopes lag lim ;;
  q <- _clean_q q ;;
  q <- np.asarray_chkfinite (np.array1d q) ;;
  if negb (np.ncols mfdfa =? np.len q)%nat then Error ValueError_dimension
  else mapM (fit_slope lag mfdfa lim) (seq 0 (np.len q)).

(** [scaling_exponents], lines 84-155. *)
Definition scaling_exponents (lag : list Z) (mfdfa : np.matrix)
  (q : np.ndarray) (lim : limits) (interpolate : Z)
  : result (list float * list float) :=
  let lim := default_lim lag lim in
  q <- _clean_q q ;;
  slopes <- _slopes lag mfdfa (np.array1d q) lim interpolate ;;
  qh <- np.multiply q slopes ;;
  OK (q, map (fun x => x - 1)%float qh).

(** [hurst_exponents], lines 158-220. *)
Definition hurst_exponents (lag : list Z) (mfdfa : np.matrix)
  (q : np.ndarray) (lim : limits) (interpolate : Z)
  : result (list float * list float) :=
  let lim := default_lim lag lim in
  q <- _clean_q q ;;
  hq <- _slopes lag mfdfa (np.array1d q) lim interpolate ;;
  OK (q, hq).

(** [_falpha], lines 265-273: [q * alpha - tau]. *)
Definition _falpha (tau alpha q : list float) : result (list float) :=
  qa <- np.multiply q alpha ;;
  np.subtract qa tau.

(** [singularity_spectrum], lines 14-81. *)
Definition singularity_spectrum (lag : list Z) (mfdfa : np.matrix)
  (q : np.ndarray) (lim : limits) (interpolate : Z)
  : result (list float * list float) :=
  let lim := default_lim lag lim in
  q <- _clean_q q ;;
  qtau <- scaling_exponents lag mfdfa (np.array1d q) lim interpolate ;;
  let tau := snd qtau in
  gtau <- np.gradient tau ;;
  gq <- np.gradient q ;;
  alpha <- np.divide gtau gq ;;
  f <- _falpha tau alpha q ;;
  OK (alpha, f).

End Singspect.

(* ================================================================== *)
(** * Predicates used in the statements *)

(** The input has a NaN or an infinite entry / has none. *)
Definition has_nonfinite (q : np.ndarray) : Prop :=
  exists v, In v (np.data q) /\ (is_nan v = true \/ is_infinity v = true).

Definition all_finite (q : np.ndarray) : Prop :=
  forall v, In v (np.data q) -> is_nan v = false /\ is_infinity v = false.


(** The two arrays [singularity_spectrum] returns, written out. *)
Definition alpha_of (tau q : list float) : list float :=
  np.zip_with PrimFloat.div
    (map (np.gradient_at tau) (seq 0 (length tau)))
    (map (np.gradient_at q) (seq 0 (length q))).

Definition f_of (tau alpha q : list float) : list float :=
  np.zip_with PrimFloat.sub (np.zip_with PrimFloat.mul q alpha) tau.

(* ================================================================== *)
(** * Binary64 numbers as sign, mantissa and exponent *)

(** Notions on the specification side of the primitive floats
    ([Prim2SF x] is [x] as a sign, a mantissa and an exponent), used to show
    which divisions of the module are exact. *)
Module Binary64.

Definition pow2_52 : positive := 4503599627370496.

(** 1.0 *)
Definition one : spec_float := S754_finite false pow2_52 (-52).

(** 0.1 and -0.1, as the literals [.1] and [-.1] round. *)
Definition tenth : spec_float := Eval vm_compute in Prim2SF 0.1%float.
Definition neg_tenth : spec_float := Eval vm_compute in Prim2SF (- 0.1)%float.

(** The stored exponent of a finite non-zero number is at least [E]. *)
Definition exp_ge (E : Z) (x : spec_float) : Prop :=
  match x with
  | S754_finite _ _ e => (E <= e)%Z
  | _ => True
  end.

(** Halving: the exponent goes down by one. *)
Definition SFhalf (x : spec_float) : spec_float :=
  match x with
  | S754_finite s m e => S754_finite s m (e - 1)
  | _ => x
  end.

(** [x] is zero, infinite, NaN, or large enough for [x / 2] to keep every
    bit of its mantissa (no underflow: [|x| >= 2^-1021]). *)
Definition halves_exactly (x : float) : bool :=
  match Prim2SF x with
  | S754_finite _ m e => bounded prec emax m (e - 1)
  | _ => true
  end.

End Binary64.

(* ================================================================== *)
(** * Concrete inputs *)

(** Executable stand-ins for the two numpy parameters and a small data set,
    used to run the functions above on concrete inputs. *)
Module Sample.

Definition fsum (l : list float) : float := fold_left PrimFloat.add l 0%float.

Definition mean (l : list float) : float :=
  (fsum l / np.float_of_int (Z.of_nat (length l)))%float.

(** Least-squares line through the points, coefficients lowest degree
    first; raises on an empty [x] and on [x], [y] of different lengths, as
    numpy's polyfit does. *)
Definition polyfit (x y : list float) (deg : Z) : option (list float) :=
  if (length x =? 0)%nat || negb (length x =? length y)%nat || negb (deg =? 1)%Z
  then None
  else
    let mx := mean x in
    let my := mean y in
    let sxy := fsum (np.zip_with (fun a b => (a - mx) * (b - my))%float x y) in
    let sxx := fsum (map (fun a => (a - mx) * (a - mx))%float x) in
    let slope := (sxy / sxx)%float in
    Some [(my - slope * mx)%float; slope].

(** Natural logarithm by [x = m * 2^e], [ln m = 2 atanh ((m-1)/(m+1))]. *)
Fixpoint atanh_series (n : nat) (k p t2 : float) : float :=
  match n with
  | O => 0%float
  | S n' => (p / k + atanh_series n' (k + 2) (p * t2) t2)%float
  end.

Definition log (x : float) : float :=
  if is_nan x then nan
  else if (x <? 0)%float then nan
  else if (x =? 0)%float then neg_infinity
  else if is_infinity x then infinity
  else
    let (m, e) := Z.frexp x in
    let t := ((m - 1) / (m + 1))%float in
    (np.float_of_int e * 0.6931471805599453
     + 2 * atanh_series 24 1 t (t * t))%float.

Definition lag : list Z := [4; 5; 6; 7; 8; 9; 10; 11]%Z.

Definition mfdfa : np.matrix :=
  {| np.ncols := 3;
     np.rows := [ [2.000; 2.144; 2.297]; [2.236; 2.423; 2.627];
                  [2.449; 2.679; 2.930]; [2.646; 2.916; 3.214];
                  [2.828; 3.138; 3.482]; [3.000; 3.348; 3.737];
                  [3.162; 3.548; 3.981]; [3.317; 3.739; 4.216] ]%float |}.

(** Four moment orders, one of them inside the excluded band. *)
Definition q : np.ndarray := np.array1d [-2; 0.05; 1; 2]%float.

(** The cleaned moment orders, and the slopes and scaling exponents the
    functions compute from the data above over the default fit range. *)
Definition qc : list float := [-2; 1; 2]%float.

Definition h : list float :=
  Eval vm_compute in
    match hurst_exponents log polyfit lag mfdfa q (None, None) 0 with
    | OK (_, h) => h
    | Error _ => []
    end.

Definition tau : list float :=
  Eval vm_compute in
    match scaling_exponents log polyfit lag mfdfa q (None, None) 0 with
    | OK (_, t) => t
    | Error _ => []
    end.

Definition alpha : list float :=
  Eval vm_compute in
    match singularity_spectrum log polyfit lag mfdfa q (None, None) 0 with
    | OK (a, _) => a
    | Error _ => []
    end.

Definition f : list float :=
  Eval vm_compute in
    match singularity_spectrum log polyfit lag mfdfa q (None, None) 0 with
    | OK (_, f) => f
    | Error _ => []
    end.

(** A lag array of one window size, a fluctuation matrix of two columns
    and a single moment order: the column count and the cleaned length
    differ. *)
Definition short_lag : list Z := [5]%Z.

Definition two_columns : np.matrix :=
  {| np.ncols := 2; np.rows := [[1; 2]%float] |}.

Definition one_q : np.ndarray := np.array1d [2%float].

(** Moment orders with a NaN among them. *)
Definition q_nan : np.ndarray := np.array1d [-2; nan; 2]%float.

End Sample.

(* ================================================================== *)
(** * Further inputs *)

(** Inputs at the edges of what the functions accept, and variations of
    the data of [Sample]. *)
Module Cases.

(** Moment orders that all lie inside the excluded band. *)
Definition q_band : np.ndarray := np.array1d [0.05; -0.1; 0]%float.

(** A matrix of eight rows and no column. *)
Definition no_column : np.matrix :=
  {| np.ncols := 0; np.rows := repeat [] 8 |}.

(** [Sample.mfdfa] with its first and last columns replaced. *)
Definition other_columns : np.matrix :=
  {| np.ncols := 3;
     np.rows := map (fun r => [1; nth 1 r 0; 7]%float) (np.rows Sample.mfdfa) |}.

Definition h_other : list float :=
  Eval vm_compute in
    match _slopes Sample.log Sample.polyfit Sample.lag other_columns Sample.q
            (Some 1%Z, Some 4%Z) 0 with
    | OK h => h
    | Error _ => []
    end.

(** Lags as window sizes usually are: the second one is not below the
    number of lags. *)
Definition wide_lag : list Z := [10; 20; 30; 40; 50; 60; 70; 80]%Z.

(** Three other moment orders outside the band. *)
Definition q_other : np.ndarray := np.array1d [5; 6; 7]%float.






End Cases.

(* ================================================================== *)
(** * Facts about float64 comparison, subtraction and division *)

Module FloatFacts.
Import Binary64.

Lemma Prim2SF_tenth : Prim2SF 0.1%float = tenth.
Proof. vm_compute. reflexivity. Qed.

Lemma Prim2SF_neg_tenth : Prim2SF (- 0.1)%float = neg_tenth.
Proof. vm_compute. reflexivity. Qed.

Lemma is_nan_spec (v : float) : is_nan v = false -> Prim2SF v <> S754_nan.
Proof.
  unfold is_nan. rewrite eqb_spec. intros H E. rewrite E in H. discriminate H.
Qed.

(** On the specification side: a number that is not NaN is neither below
    [-c] nor above [c] exactly when its magnitude is at most [c]. *)
Lemma SF_keep_abs (m0 : positive) (e0 : Z) (x : spec_float) :
  x <> S754_nan ->
  SFltb x (S754_finite true m0 e0) || SFltb (S754_finite false m0 e0) x
  = negb (SFleb (SFabs x) (S754_finite false m0 e0)).
Proof.
  intros Hnan. destruct x as [s | s | | s m e]; try congruence.
  - destruct s; reflexivity.
  - destruct s; reflexivity.
  - unfold SFltb, SFleb, SFabs, SFcompare.
    fold (Pos.compare m m0). fold (Pos.compare m0 m).
    rewrite (Z.compare_antisym e e0), (Pos.compare_antisym m m0).
    destruct s; destruct (e ?= e0)%Z; cbn [CompOpp orb negb];
      try reflexivity; destruct (m ?= m0)%positive; reflexivity.
Qed.

(** ** Exponents never fall far in a subtraction *)

Lemma exp_ge_weaken (E E' : Z) (x : spec_float) :
  (E' <= E)%Z -> exp_ge E x -> exp_ge E' x.
Proof. destruct x; simpl; auto; lia. Qed.

(** Shifting a mantissa right only raises the exponent. *)
Lemma shr_exp (mrs : shr_record) (e n : Z) :
  snd (shr mrs e n) = Z.max e (e + n).
Proof. destruct n; simpl; lia. Qed.

Lemma shr_fexp_exp (m e : Z) (l : location) :
  snd (shr_fexp prec emax m e l) = Z.max e (fexp prec emax (Zdigits2 m + e)).
Proof. unfold shr_fexp. rewrite shr_exp. lia. Qed.

(** Rounding [mx * 2^ex] gives an exponent at least [ex], and at least
    the exponent of the format for that magnitude. *)
Lemma round_aux_exp (sx : bool) (mx ex : Z) (lx : location) :
  exp_ge (Z.max ex (fexp prec emax (Zdigits2 mx + ex)))
         (binary_round_aux prec emax sx mx ex lx).
Proof.
  unfold binary_round_aux.
  pose proof (shr_fexp_exp mx ex lx) as H1.
  destruct (shr_fexp prec emax mx ex lx) as [mrs' e']. simpl in H1.
  set (r := round_nearest_even _ _).
  pose proof (shr_fexp_exp r e' loc_Exact) as H2.
  destruct (shr_fexp prec emax r e' loc_Exact) as [mrs'' e'']. simpl in H2.
  destruct (shr_m mrs''); simpl; auto.
  destruct (Z.leb _ _); simpl; auto. lia.
Qed.

Lemma round_exp (sx : bool) (mx : positive) (ex : Z) :
  exp_ge (fexp prec emax (Z.pos (digits2_pos mx) + ex))
         (binary_round prec emax sx mx ex).
Proof.
  unfold binary_round, shl_align.
  set (F := fexp prec emax (Z.pos (digits2_pos mx) + ex)).
  destruct (F - ex)%Z as [| d | d] eqn:E.
  - apply exp_ge_weaken with (E := Z.max ex F);
      [apply Z.le_max_r | apply (round_aux_exp sx (Z.pos mx) ex)].
  - apply exp_ge_weaken with (E := Z.max ex F);
      [apply Z.le_max_r | apply (round_aux_exp sx (Z.pos mx) ex)].
  - apply exp_ge_weaken
      with (E := Z.max F (fexp prec emax (Zdigits2 (Z.pos (Pos.iter xO mx d)) + F)));
      [apply Z.le_max_l | apply round_aux_exp].
Qed.

Lemma normalize_exp (m e : Z) (sz : bool) :
  exp_ge (Zdigits2 m + e - 53) (binary_normalize prec emax m e sz).
Proof.
  destruct m as [| p | p]; cbn [binary_normalize Zdigits2 exp_ge]; auto.
  - apply exp_ge_weaken with (E := fexp prec emax (Z.pos (digits2_pos p) + e));
      [unfold fexp, prec; lia | apply round_exp].
  - apply exp_ge_weaken with (E := fexp prec emax (Z.pos (digits2_pos p) + e));
      [unfold fexp, prec; lia | apply round_exp].
Qed.

Lemma Zdigits2_pos (m : Z) : m <> 0%Z -> (1 <= Zdigits2 m)%Z.
Proof. destruct m; simpl; [congruence | lia | lia]. Qed.

Lemma digits2_size (p : positive) : digits2_pos p = Pos.size p.
Proof. induction p; simpl; congruence. Qed.

(** A magnitude of at least [2^k] has more than [k] digits. *)
Lemma Zdigits2_ge (m k : Z) :
  (0 <= k)%Z -> (2 ^ k <= Z.abs m)%Z -> (k + 1 <= Zdigits2 m)%Z.
Proof.
  intros Hk Hm.
  assert (H : forall p, (2 ^ k <= Z.pos p)%Z -> (k + 1 <= Z.pos (digits2_pos p))%Z).
  { intros p Hp. rewrite digits2_size.
    pose proof (Pos.size_gt p) as Hgt.
    apply Pos2Z.pos_lt_pos in Hgt. rewrite Pos2Z.inj_pow in Hgt.
    assert (k < Z.pos (Pos.size p))%Z; [| lia].
    apply (Z.pow_lt_mono_r_iff 2); lia. }
  destruct m as [| p | p]; simpl in *.
  - pose proof (Z.pow_pos_nonneg 2 k). lia.
  - apply H, Hm.
  - apply H, Hm.
Qed.

(** A mantissa of at most 53 digits is below [2^53]. *)
Lemma digits_53_bound (p : positive) :
  (Z.pos (digits2_pos p) <= 53)%Z -> (Z.pos p < 2 ^ 53)%Z.
Proof.
  intros H. rewrite digits2_size in H.
  pose proof (Pos.size_gt p) as Hgt.
  apply Pos2Z.pos_lt_pos in Hgt. rewrite Pos2Z.inj_pow in Hgt.
  eapply Z.lt_le_trans; [exact Hgt |].
  apply Z.pow_le_mono_r; lia.
Qed.

Lemma iter_xO_pow (p d : positive) :
  Z.pos (Pos.iter xO p d) = (Z.pos p * 2 ^ Z.pos d)%Z.
Proof.
  induction d as [| d IH] using Pos.peano_ind.
  - simpl. lia.
  - rewrite Pos.iter_succ, Pos2Z.inj_succ, Z.pow_succ_r by lia.
    rewrite Pos2Z.inj_xO, IH. lia.
Qed.

(** Subtracting two numbers whose exponents are at least [E] gives a
    number whose exponent is at least [E - 52]. *)
Lemma sub_exp (E : Z) (x y : spec_float) :
  exp_ge E x -> exp_ge E y -> exp_ge (E - 52) (SFsub prec emax x y).
Proof.
  destruct x as [sx | sx | | sx mx ex]; destruct y as [sy | sy | | sy my ey];
    simpl exp_ge; intros Hx Hy.
  16: { cbn [SFsub].
        match goal with
        | |- exp_ge _ (binary_normalize _ _ ?M ?ez _) =>
            destruct (Z.eq_dec M 0) as [-> | Hne];
            [exact I |
             apply exp_ge_weaken with (E := (Zdigits2 M + ez - 53)%Z);
             [pose proof (Zdigits2_pos M Hne); lia | apply normalize_exp]]
        end. }
  all: try (destruct sx); try (destruct sy); simpl; auto; lia.
Qed.

(** [p - 1] is never a tiny number: its exponent is at least -105. *)
Lemma sub_one_exp (p : spec_float) :
  valid_binary p = true ->
  exp_ge (-105) (SFsub prec emax p one).
Proof.
  intros Hv. unfold one.
  destruct p as [s | s | | s m e];
    try (destruct s; simpl; auto; lia); try exact I.
  destruct (Z_le_gt_dec (-53) e) as [Hbig | Hsmall].
  - apply (sub_exp (-53)); simpl; lia.
  - assert (Hm : (Z.pos m < 2 ^ 53)%Z).
    { apply digits_53_bound. simpl in Hv.
      unfold bounded, canonical_mantissa, fexp, emin, prec, emax in Hv.
      apply andb_true_iff in Hv as [Hv _]. apply Z.eqb_eq in Hv. lia. }
    cbn [SFsub].
    replace (Z.min e (-52)) with e by lia.
    unfold shl_align. rewrite Z.sub_diag.
    destruct (e - -52)%Z as [| d | d] eqn:Hd; try lia.
    cbn [fst cond_Zopp]. rewrite iter_xO_pow.
    set (M := (_ - _)%Z).
    apply exp_ge_weaken with (E := (Zdigits2 M + e - 53)%Z);
      [| apply normalize_exp].
    assert (HK : (0 <= - e - 1)%Z) by lia.
    pose proof (Zdigits2_ge M (- e - 1) HK) as Hdig.
    assert (Hpow : (Z.pos pow2_52 * 2 ^ Z.pos d = 2 * 2 ^ (- e - 1))%Z).
    { change (Z.pos pow2_52) with (2 ^ 52)%Z.
      rewrite <- Z.pow_add_r by lia. rewrite <- Z.pow_succ_r by lia.
      f_equal. lia. }
    assert (Hbig : (2 ^ 53 <= 2 ^ (- e - 1))%Z)
      by (apply Z.pow_le_mono_r; lia).
    assert (Habs : (2 ^ (- e - 1) <= Z.abs M)%Z).
    { subst M. rewrite Hpow. destruct s; simpl cond_Zopp; lia. }
    specialize (Hdig Habs). lia.
Qed.

(** From the kept side of the comparison with [c = m0 * 2^e0]: the
    exponent is at least that of [c]. *)
Lemma SF_keep_exp (m0 : positive) (e0 : Z) (x : spec_float) :
  SFltb x (S754_finite true m0 e0) || SFltb (S754_finite false m0 e0) x = true ->
  exp_ge e0 x.
Proof.
  destruct x as [s | s | | s m e]; simpl exp_ge; auto.
  unfold SFltb, SFcompare.
  rewrite (Z.compare_antisym e e0).
  destruct (Z.compare_spec e e0) as [He | He | He]; try lia.
  destruct s; cbn [CompOpp orb]; discriminate.
Qed.

Lemma halves_of_exp (x : float) :
  exp_ge (-1073) (Prim2SF x) -> halves_exactly x = true.
Proof.
  unfold halves_exactly. pose proof (Prim2SF_valid x) as Hv.
  destruct (Prim2SF x) as [s | s | | s m e]; auto.
  simpl. intros He. simpl in Hv.
  unfold bounded, canonical_mantissa, fexp, emin, prec, emax in *.
  apply andb_true_iff in Hv as [H1 H2].
  apply Z.eqb_eq in H1. apply Z.leb_le in H2.
  apply andb_true_iff. split; [apply Z.eqb_eq | apply Z.leb_le]; lia.
Qed.

Lemma float_sub_halves (a b : float) :
  exp_ge (-1021) (Prim2SF a) -> exp_ge (-1021) (Prim2SF b) ->
  halves_exactly (a - b) = true.
Proof.
  intros Ha Hb. apply halves_of_exp. rewrite sub_spec.
  apply (sub_exp (-1021) _ _ Ha Hb).
Qed.

Lemma float_sub_one_exp (p : float) : exp_ge (-105) (Prim2SF (p - 1)).
Proof.
  rewrite sub_spec.
  change (Prim2SF 1) with one.
  apply sub_one_exp, Prim2SF_valid.
Qed.

(** ** Dividing by one and by two *)

Lemma div_eucl_exact (a b : Z) :
  (0 < b)%Z -> Z.div_eucl (a * b) b = (a, 0%Z).
Proof.
  intros Hb.
  pose proof (Z.div_mul a b ltac:(lia)) as Hq.
  pose proof (Z.mod_mul a b ltac:(lia)) as Hr.
  unfold Z.div, Z.modulo in Hq, Hr.
  destruct (Z.div_eucl (a * b) b) as [q r]. simpl in Hq, Hr. congruence.
Qed.

Lemma bounded_cases (m : positive) (E : Z) :
  bounded prec emax m E = true ->
  (E <= 971)%Z /\
  ((Z.pos (digits2_pos m) = 53 /\ -1074 < E)%Z \/
   (E = -1074 /\ Z.pos (digits2_pos m) <= 53)%Z).
Proof.
  unfold bounded, canonical_mantissa, fexp, emin, prec, emax.
  intros H. apply andb_true_iff in H as [H1 H2].
  apply Z.eqb_eq in H1. apply Z.leb_le in H2. lia.
Qed.

(** Dividing by [2^k] only moves the exponent, as long as the result is
    representable with the same mantissa. *)
Lemma SFdiv_pow2 (s : bool) (m : positive) (e k : Z) :
  bounded prec emax m (e - k) = true ->
  SFdiv prec emax (S754_finite s m e) (S754_finite false pow2_52 (k - 52))
  = S754_finite s m (e - k).
Proof.
  intros Hb. destruct (bounded_cases m (e - k) Hb) as [Hmax Hcase].
  unfold SFdiv, SFdiv_core_binary.
  cbn [Zdigits2].
  change (digits2_pos pow2_52) with 53%positive.
  set (d := Z.pos (digits2_pos m)) in *.
  destruct Hcase as [[Hd HE] | [HE Hd]].
  - replace (Z.min (fexp prec emax (d + e - (53 + (k - 52)))) (e - (k - 52)))
      with (e - k - 1)%Z
      by (unfold fexp, emin, prec, emax; lia).
    replace (e - (k - 52) - (e - k - 1))%Z with 53%Z by lia.
    rewrite Z.shiftl_mul_pow2 by lia.
    replace (Z.pos m * 2 ^ 53)%Z with (Z.pos m~0 * Z.pos pow2_52)%Z
      by (change (2 ^ 53)%Z with (2 * Z.pos pow2_52)%Z; lia).
    rewrite div_eucl_exact by lia.
    change (new_location (Z.pos pow2_52) 0) with loc_Exact.
    unfold binary_round_aux, shr_fexp.
    cbn [Zdigits2 digits2_pos shr_record_of_loc].
    rewrite Pos2Z.inj_succ. fold d.
    replace (fexp prec emax (Z.succ d + (e - k - 1)) - (e - k - 1))%Z with 1%Z
      by (unfold fexp, emin, prec, emax; lia).
    cbn [shr iter_pos shr_1 orb shr_m loc_of_shr_record round_nearest_even
         shr_record_of_loc Zdigits2].
    fold d.
    replace (fexp prec emax (d + (e - k - 1 + 1)) - (e - k - 1 + 1))%Z with 0%Z
      by (unfold fexp, emin, prec, emax; lia).
    cbn [shr shr_m].
    replace (e - k - 1 + 1)%Z with (e - k)%Z by lia.
    replace (e - k <=? emax - prec)%Z with true
      by (symmetry; apply Z.leb_le; unfold prec, emax; lia).
    rewrite xorb_false_r. reflexivity.
  - replace (Z.min (fexp prec emax (d + e - (53 + (k - 52)))) (e - (k - 52)))
      with (e - k)%Z
      by (unfold fexp, emin, prec, emax; lia).
    replace (e - (k - 52) - (e - k))%Z with 52%Z by lia.
    rewrite Z.shiftl_mul_pow2 by lia.
    change (2 ^ 52)%Z with (Z.pos pow2_52).
    rewrite div_eucl_exact by lia.
    change (new_location (Z.pos pow2_52) 0) with loc_Exact.
    unfold binary_round_aux, shr_fexp.
    cbn [Zdigits2 shr_record_of_loc]. fold d.
    replace (fexp prec emax (d + (e - k)) - (e - k))%Z with 0%Z
      by (unfold fexp, emin, prec, emax; lia).
    cbn [shr iter_pos shr_1 orb shr_m loc_of_shr_record round_nearest_even
         shr_record_of_loc Zdigits2].
    fold d.
    replace (fexp prec emax (d + (e - k)) - (e - k))%Z with 0%Z
      by (unfold fexp, emin, prec, emax; lia).
    cbn [shr shr_m].
    replace (e - k <=? emax - prec)%Z with true
      by (symmetry; apply Z.leb_le; unfold prec, emax; lia).
    rewrite xorb_false_r. reflexivity.
Qed.

Lemma Prim2SF_one : Prim2SF 1 = S754_finite false pow2_52 (0 - 52).
Proof. vm_compute. reflexivity. Qed.

Lemma Prim2SF_two : Prim2SF 2 = S754_finite false pow2_52 (1 - 52).
Proof. vm_compute. reflexivity. Qed.

Lemma div_1 (x : float) : (x / 1)%float = x.
Proof.
  apply Prim2SF_inj. rewrite div_spec, Prim2SF_one.
  pose proof (Prim2SF_valid x) as Hv.
  destruct (Prim2SF x) as [s | s | | s m e].
  - destruct s; reflexivity.
  - destruct s; reflexivity.
  - reflexivity.
  - unfold SF64div. rewrite SFdiv_pow2; rewrite Z.sub_0_r; [reflexivity |].
    exact Hv.
Qed.

Lemma Prim2SF_half (x : float) :
  halves_exactly x = true -> Prim2SF (x / 2)%float = SFhalf (Prim2SF x).
Proof.
  unfold halves_exactly. intros H. rewrite div_spec, Prim2SF_two.
  destruct (Prim2SF x) as [s | s | | s m e].
  - destruct s; reflexivity.
  - destruct s; reflexivity.
  - reflexivity.
  - unfold SF64div. rewrite SFdiv_pow2; [reflexivity | exact H].
Qed.

Lemma SFdiv_half (x y : spec_float) :
  SFdiv prec emax (SFhalf x) (SFhalf y) = SFdiv prec emax x y.
Proof.
  destruct x as [sx | sx | | sx mx ex]; destruct y as [sy | sy | | sy my ey];
    try reflexivity.
  unfold SFhalf, SFdiv, SFdiv_core_binary.
  replace (Zdigits2 (Z.pos mx) + (ex - 1) - (Zdigits2 (Z.pos my) + (ey - 1)))%Z
    with (Zdigits2 (Z.pos mx) + ex - (Zdigits2 (Z.pos my) + ey))%Z by lia.
  replace (ex - 1 - (ey - 1))%Z with (ex - ey)%Z by lia.
  reflexivity.
Qed.

(** Halving both operands of a quotient changes nothing when neither
    halving underflows. *)
Lemma div_half_half (a b : float) :
  halves_exactly a = true -> halves_exactly b = true ->
  ((a / 2) / (b / 2))%float = (a / b)%float.
Proof.
  intros Ha Hb. apply Prim2SF_inj.
  rewrite (div_spec (a / 2) (b / 2)), (div_spec a b).
  rewrite (Prim2SF_half a Ha), (Prim2SF_half b Hb).
  apply SFdiv_half.
Qed.

End FloatFacts.

(** What [_clean_q] keeps, read as the spec words it: a value that is not
    NaN is kept exactly when its magnitude is not at most 0.1. *)
Lemma keep_q_abs (v : float) :
  is_nan v = false -> keep_q v = negb (abs v <=? 0.1)%float.
Proof.
  intros Hnan. unfold keep_q.
  rewrite !ltb_spec, leb_spec, abs_spec.
  rewrite FloatFacts.Prim2SF_tenth, FloatFacts.Prim2SF_neg_tenth.
  unfold Binary64.tenth, Binary64.neg_tenth.
  apply FloatFacts.SF_keep_abs, FloatFacts.is_nan_spec, Hnan.
Qed.

(* ================================================================== *)
(** * The result monad *)

Lemma bind_OK {A B : Type} (m : result A) (k : A -> result B) (b : B) :
  bind m k = OK b -> exists a, m = OK a /\ k a = OK b.
Proof. destruct m as [a | e]; simpl; [eauto | discriminate]. Qed.

Lemma bind_Error {A B : Type} (m : result A) (k : A -> result B) (e : exn) :
  bind m k = Error e -> m = Error e \/ exists a, m = OK a /\ k a = Error e.
Proof. destruct m as [a | e']; simpl; [eauto | intros [= ->]; now left]. Qed.

Lemma mapM_length {A B : Type} (f : A -> result B) (l : list A) :
  forall r, mapM f l = OK r -> length r = length l.
Proof.
  induction l as [| a l IH]; simpl; intros r H.
  - injection H as <-. reflexivity.
  - apply bind_OK in H as (b & _ & H).
    apply bind_OK in H as (bs & Hbs & H).
    injection H as <-. simpl. f_equal. apply IH, Hbs.
Qed.

Lemma mapM_Error {A B : Type} (f : A -> result B) (l : list A) (e : exn) :
  mapM f l = Error e -> exists a, In a l /\ f a = Error e.
Proof.
  induction l as [| a l IH]; simpl; intros H; [discriminate |].
  apply bind_Error in H as [H | (b & _ & H)].
  - exists a. auto.
  - apply bind_Error in H as [H | (bs & _ & H)]; [| discriminate].
    destruct (IH H) as (a' & Hin & Ha'). exists a'. auto.
Qed.

(* ================================================================== *)
(** * Facts about the numpy operations *)

Lemma zip_with_length {A B C : Type} (f : A -> B -> C) (a : list A) :
  forall b, length a = length b -> length (np.zip_with f a b) = length a.
Proof.
  induction a as [| x a IH]; intros [| y b]; simpl; intros H;
    try reflexivity; try discriminate.
  f_equal. apply IH. lia.
Qed.

Lemma zip_with_nth {A B C : Type} (f : A -> B -> C) (da : A) (db : B) (dc : C)
  (a : list A) :
  forall b i, length a = length b -> (i < length a)%nat ->
    nth i (np.zip_with f a b) dc = f (nth i a da) (nth i b db).
Proof.
  induction a as [| x a IH]; intros [| y b] i Hlen Hi; simpl in *;
    try lia.
  destruct i as [| i]; [reflexivity |]. apply IH; lia.
Qed.

Lemma broadcast_same (f : float -> float -> float) (a b : list float) :
  length a = length b -> np.broadcast f a b = OK (np.zip_with f a b).
Proof.
  intros H. unfold np.broadcast. rewrite H, Nat.eqb_refl. reflexivity.
Qed.

Lemma gradient_OK (f : list float) :
  (2 <= length f)%nat ->
  np.gradient f = OK (map (np.gradient_at f) (seq 0 (length f))).
Proof.
  intros H. unfold np.gradient.
  destruct (Nat.ltb_spec (length f) 2); [lia | reflexivity].
Qed.

Lemma gradient_inv (f g : list float) :
  np.gradient f = OK g ->
  (2 <= length f)%nat /\ g = map (np.gradient_at f) (seq 0 (length f)).
Proof.
  unfold np.gradient. destruct (Nat.ltb_spec (length f) 2) as [Hlt | Hge];
    intros Hg.
  - discriminate.
  - injection Hg as <-. split; [lia | reflexivity].
Qed.

(* ================================================================== *)
(** * The moment-order cleaner *)

Lemma isfinite_true (v : float) :
  np.isfinite v = true <-> is_nan v = false /\ is_infinity v = false.
Proof.
  unfold np.isfinite, is_finite. rewrite negb_true_iff, orb_false_iff. tauto.
Qed.

Lemma all_finite_forallb (q : np.ndarray) :
  all_finite q <-> forallb np.isfinite (np.data q) = true.
Proof.
  unfold all_finite. rewrite forallb_forall. split; intros H v Hv.
  - apply isfinite_true, H, Hv.
  - apply isfinite_true, H, Hv.
Qed.

Lemma has_nonfinite_forallb (q : np.ndarray) :
  has_nonfinite q <-> forallb np.isfinite (np.data q) = false.
Proof.
  unfold has_nonfinite. split.
  - intros (v & Hin & Hv). apply not_true_is_false. intros Hall.
    rewrite forallb_forall in Hall. apply Hall, isfinite_true in Hin.
    destruct Hin as [Hn Hi], Hv; congruence.
  - induction (np.data q) as [| v l IH]; simpl; [discriminate |].
    intros H. apply andb_false_iff in H as [H | H].
    + exists v. split; [now left |].
      unfold np.isfinite, is_finite in H. apply negb_false_iff in H.
      apply orb_true_iff, H.
    + destruct (IH H) as (w & Hin & Hw). exists w. split; [now right | exact Hw].
Qed.

Lemma clean_q_finite (q : np.ndarray) :
  all_finite q -> _clean_q q = OK (filter keep_q (np.data q)).
Proof.
  intros H. apply all_finite_forallb in H.
  unfold _clean_q, np.asarray_chkfinite. rewrite H. reflexivity.
Qed.

Lemma clean_q_nonfinite (q : np.ndarray) :
  has_nonfinite q -> _clean_q q = Error ValueError_nonfinite.
Proof.
  intros H. apply has_nonfinite_forallb in H.
  unfold _clean_q, np.asarray_chkfinite. rewrite H. reflexivity.
Qed.

Lemma clean_q_inv (q : np.ndarray) (qc : list float) :
  _clean_q q = OK qc -> all_finite q /\ qc = filter keep_q (np.data q).
Proof.
  unfold _clean_q, np.asarray_chkfinite.
  destruct (forallb np.isfinite (np.data q)) eqn:E; simpl; intros H.
  - injection H as <-. split; [apply all_finite_forallb, E | reflexivity].
  - discriminate.
Qed.

Lemma clean_q_Error (q : np.ndarray) (e : exn) :
  _clean_q q = Error e -> e = ValueError_nonfinite.
Proof.
  unfold _clean_q, np.asarray_chkfinite.
  destruct (forallb np.isfinite (np.data q)); simpl; congruence.
Qed.

Lemma filter_idem {A : Type} (p : A -> bool) (l : list A) :
  filter p (filter p l) = filter p l.
Proof.
  induction l as [| a l IH]; simpl; [reflexivity |].
  destruct (p a) eqn:E; simpl; [rewrite E, IH |]; auto.
Qed.

Lemma all_finite_cleaned (q : np.ndarray) :
  all_finite q -> all_finite (np.array1d (filter keep_q (np.data q))).
Proof.
  intros H v Hv. simpl in Hv. apply filter_In in Hv as [Hv _]. apply H, Hv.
Qed.

(** Cleaning an already cleaned array returns it. *)
Lemma clean_q_cleaned (q : np.ndarray) (qc : list float) :
  _clean_q q = OK qc -> _clean_q (np.array1d qc) = OK qc.
Proof.
  intros H. apply clean_q_inv in H as [Hfin ->].
  rewrite clean_q_finite by (apply all_finite_cleaned, Hfin).
  simpl. rewrite filter_idem. reflexivity.
Qed.

Lemma chkfinite_cleaned (q : np.ndarray) (qc : list float) :
  _clean_q q = OK qc ->
  np.asarray_chkfinite (np.array1d qc) = OK (np.array1d qc).
Proof.
  intros H. apply clean_q_inv in H as [Hfin ->].
  apply all_finite_cleaned, all_finite_forallb in Hfin.
  unfold np.asarray_chkfinite. rewrite Hfin. reflexivity.
Qed.

(** C9. The moment-order cleaner is idempotent: for every input whose
    entries are all finite, [_clean_q] returns an array, and cleaning that
    array again returns the same array, [_clean_q(_clean_q(q)) = _clean_q(q)]. *)
Theorem clean_q_idempotent (q : np.ndarray) :
  all_finite q ->
  exists qc, _clean_q q = OK qc /\ _clean_q (np.array1d qc) = OK qc.
Proof.
  intros H. exists (filter keep_q (np.data q)).
  pose proof (clean_q_finite q H) as Hc. split; [exact Hc |].
  apply (clean_q_cleaned q _ Hc).
Qed.

(** C4. For every input whose entries are all finite, the cleaner returns
    the flat sequence of the entries [v] that do not satisfy [|v| <= 0.1],
    in their original order (these are the entries with [v < -0.1] or
    [v > 0.1]); cleaning [-10, -0.05, 0.05, 10] gives exactly [-10, 10]; and
    an input with no entry of magnitude at most 0.1 comes back with its
    entries unchanged. *)
Theorem clean_q_threshold :
  (forall q, all_finite q ->
     _clean_q q = OK (filter (fun v => negb (abs v <=? 0.1)%float) (np.data q)))
  /\ _clean_q (np.array1d [-10; -0.05; 0.05; 10]%float) = OK [-10; 10]%float
  /\ (forall q, all_finite q ->
        (forall v, In v (np.data q) -> (abs v <=? 0.1)%float = false) ->
        _clean_q q = OK (np.data q)).
Proof.
  assert (Hfilter : forall q, all_finite q ->
     _clean_q q = OK (filter (fun v => negb (abs v <=? 0.1)%float) (np.data q))).
  { intros q H. rewrite (clean_q_finite q H). f_equal.
    apply filter_ext_in. intros v Hv. apply keep_q_abs, H, Hv. }
  split; [exact Hfilter |]. split; [vm_compute; reflexivity |].
  intros q Hfin Hbig. rewrite (Hfilter q Hfin). f_equal.
  apply forallb_filter_id, forallb_forall. intros v Hv.
  rewrite (Hbig v Hv). reflexivity.
Qed.

(* ================================================================== *)
(** * The slope estimator and the functions built on it *)

Section Properties.

Variable np_log : float -> float.
Variable polyfit : list float -> list float -> Z -> option (list float).

Lemma default_lim_slopes_set (lag : list Z) (lim : limits) :
  lim <> (None, None) -> default_lim_slopes lag lim = OK lim.
Proof. destruct lim as [[lo |] [hi |]]; simpl; congruence. Qed.

Lemma default_lim_set (lag : list Z) (lim : limits) :
  default_lim lag lim <> (None, None).
Proof. destruct lim as [[lo |] [hi |]]; simpl; congruence. Qed.

Lemma default_lim_idem (lag : list Z) (lim : limits) :
  default_lim lag (default_lim lag lim) = default_lim lag lim.
Proof. destruct lim as [[lo |] [hi |]]; reflexivity. Qed.

(** [_slopes] once its fit range and the cleaned [q] are known. *)
Lemma slopes_unfold lag mfdfa q lim interp lim' qc :
  default_lim_slopes lag lim = OK lim' ->
  _clean_q q = OK qc ->
  _slopes np_log polyfit lag mfdfa q lim interp =
  if negb (np.ncols mfdfa =? length qc)%nat then Error ValueError_dimension
  else mapM (fit_slope np_log polyfit lag mfdfa lim') (seq 0 (length qc)).
Proof.
  intros Hlim Hq. unfold _slopes. rewrite Hlim, Hq. simpl.
  rewrite (chkfinite_cleaned q qc Hq). reflexivity.
Qed.

(** [_slopes] cleans [q] itself, so a cleaned [q] gives the same slopes. *)
Lemma slopes_cleaned lag mfdfa q lim interp qc :
  _clean_q q = OK qc ->
  _slopes np_log polyfit lag mfdfa (np.array1d qc) lim interp = _slopes np_log polyfit lag mfdfa q lim interp.
Proof.
  intros Hq. unfold _slopes.
  destruct (default_lim_slopes lag lim) as [lim' | e]; simpl; [| reflexivity].
  rewrite (clean_q_cleaned q qc Hq), Hq. reflexivity.
Qed.

Lemma slopes_length lag mfdfa q lim interp qc h :
  _clean_q q = OK qc ->
  _slopes np_log polyfit lag mfdfa q lim interp = OK h ->
  length h = length qc /\ np.ncols mfdfa = length qc.
Proof.
  intros Hq Hs.
  destruct (default_lim_slopes lag lim) as [lim' | e] eqn:Hlim.
  - rewrite (slopes_unfold lag mfdfa q lim interp lim' qc Hlim Hq) in Hs.
    destruct (Nat.eqb_spec (np.ncols mfdfa) (length qc)) as [Heq | Hne];
      simpl in Hs; [| discriminate].
    apply mapM_length in Hs. rewrite length_seq in Hs. auto.
  - unfold _slopes in Hs. rewrite Hlim in Hs. discriminate.
Qed.

Lemma scaling_unfold lag mfdfa q lim interp qc :
  _clean_q q = OK qc ->
  scaling_exponents np_log polyfit lag mfdfa q lim interp =
  (h <- _slopes np_log polyfit lag mfdfa q (default_lim lag lim) interp ;;
   qh <- np.multiply qc h ;;
   OK (qc, map (fun x => x - 1)%float qh)).
Proof.
  intros Hq. unfold scaling_exponents. rewrite Hq. simpl.
  rewrite (slopes_cleaned lag mfdfa q _ interp qc Hq). reflexivity.
Qed.

Lemma hurst_unfold lag mfdfa q lim interp qc :
  _clean_q q = OK qc ->
  hurst_exponents np_log polyfit lag mfdfa q lim interp =
  (h <- _slopes np_log polyfit lag mfdfa q (default_lim lag lim) interp ;; OK (qc, h)).
Proof.
  intros Hq. unfold hurst_exponents. rewrite Hq. simpl.
  rewrite (slopes_cleaned lag mfdfa q _ interp qc Hq). reflexivity.
Qed.

(** The call [singularity_spectrum] makes, on the cleaned [q] and the
    substituted range, is the call on the caller's arguments. *)
Lemma scaling_cleaned lag mfdfa q lim interp qc :
  _clean_q q = OK qc ->
  scaling_exponents np_log polyfit lag mfdfa (np.array1d qc) (default_lim lag lim) interp
  = scaling_exponents np_log polyfit lag mfdfa q lim interp.
Proof.
  intros Hq.
  rewrite (scaling_unfold lag mfdfa q lim interp qc Hq).
  rewrite (scaling_unfold lag mfdfa _ _ interp qc (clean_q_cleaned q qc Hq)).
  rewrite default_lim_idem, (slopes_cleaned lag mfdfa q _ interp qc Hq).
  reflexivity.
Qed.

Lemma spectrum_unfold lag mfdfa q lim interp qc :
  _clean_q q = OK qc ->
  singularity_spectrum np_log polyfit lag mfdfa q lim interp =
  (qtau <- scaling_exponents np_log polyfit lag mfdfa q lim interp ;;
   gtau <- np.gradient (snd qtau) ;;
   gq <- np.gradient qc ;;
   alpha <- np.divide gtau gq ;;
   f <- _falpha (snd qtau) alpha qc ;;
   OK (alpha, f)).
Proof.
  intros Hq. unfold singularity_spectrum. rewrite Hq. simpl.
  rewrite (scaling_cleaned lag mfdfa q lim interp qc Hq). reflexivity.
Qed.

Lemma nth_map_lt (f : float -> float) (l : list float) (i : nat) (d d' : float) :
  (i < length l)%nat -> nth i (map f l) d' = f (nth i l d).
Proof.
  intros Hi. rewrite (nth_indep _ d' (f d)) by (rewrite length_map; exact Hi).
  apply map_nth.
Qed.

(** C1. Whenever [q] passes the cleaning and the Slope Estimator returns
    slopes [h] for the same lag, fluctuation matrix and [q] over the fit
    range in force, [scaling_exponents] returns the pair (cleaned [q], [tau])
    with [tau[j] = q[j] * h[j] - 1] for every index [j], and the returned [q],
    [tau] and [h] all have the same length. *)
Theorem scaling_exponents_tau lag mfdfa q lim interp qc h :
  _clean_q q = OK qc ->
  _slopes np_log polyfit lag mfdfa q (default_lim lag lim) interp = OK h ->
  exists tau,
    scaling_exponents np_log polyfit lag mfdfa q lim interp = OK (qc, tau) /\
    length tau = length qc /\ length h = length qc /\
    forall j, (j < length qc)%nat ->
      nth j tau 0%float = (nth j qc 0 * nth j h 0 - 1)%float.
Proof.
  intros Hq Hs.
  destruct (slopes_length lag mfdfa q _ interp qc h Hq Hs) as [Hlen _].
  exists (map (fun x => x - 1)%float (np.zip_with PrimFloat.mul qc h)).
  assert (Hz : length (np.zip_with PrimFloat.mul qc h) = length qc)
    by (apply zip_with_length; congruence).
  split; [| split; [| split]].
  - rewrite (scaling_unfold lag mfdfa q lim interp qc Hq), Hs. simpl.
    unfold np.multiply. rewrite broadcast_same by congruence. reflexivity.
  - rewrite length_map. exact Hz.
  - exact Hlen.
  - intros j Hj. rewrite (nth_map_lt _ _ j 0%float) by lia.
    rewrite (zip_with_nth PrimFloat.mul 0%float 0%float) by congruence.
    reflexivity.
Qed.

(** [_falpha] on three arrays of one length. *)
Lemma falpha_same_length (tau alpha q : list float) :
  length tau = length q -> length alpha = length q ->
  _falpha tau alpha q
  = OK (np.zip_with PrimFloat.sub (np.zip_with PrimFloat.mul q alpha) tau).
Proof.
  intros Ht Ha. unfold _falpha, np.multiply, np.subtract.
  rewrite broadcast_same by congruence. simpl.
  rewrite broadcast_same; [reflexivity |].
  rewrite zip_with_length; congruence.
Qed.

Lemma scaling_inv lag mfdfa q lim interp qc r :
  _clean_q q = OK qc ->
  scaling_exponents np_log polyfit lag mfdfa q lim interp = OK r ->
  exists h,
    _slopes np_log polyfit lag mfdfa q (default_lim lag lim) interp = OK h /\
    length h = length qc /\
    r = (qc, map (fun x => x - 1)%float (np.zip_with PrimFloat.mul qc h)).
Proof.
  intros Hq Hr. rewrite (scaling_unfold lag mfdfa q lim interp qc Hq) in Hr.
  apply bind_OK in Hr as (h & Hs & Hr). exists h.
  destruct (slopes_length lag mfdfa q _ interp qc h Hq Hs) as [Hlen _].
  unfold np.multiply in Hr. rewrite broadcast_same in Hr by congruence.
  simpl in Hr. injection Hr as <-. auto.
Qed.

Lemma scaling_tau_length lag mfdfa q lim interp qc q' tau :
  _clean_q q = OK qc ->
  scaling_exponents np_log polyfit lag mfdfa q lim interp = OK (q', tau) ->
  q' = qc /\ length tau = length qc.
Proof.
  intros Hq Hr.
  destruct (scaling_inv lag mfdfa q lim interp qc _ Hq Hr) as (h & _ & Hlen & E).
  injection E as -> ->. split; [reflexivity |].
  rewrite length_map. apply zip_with_length. congruence.
Qed.

Lemma alpha_of_length (tau q : list float) :
  length tau = length q -> length (alpha_of tau q) = length q.
Proof.
  intros H. unfold alpha_of.
  rewrite zip_with_length; rewrite !length_map, !length_seq; congruence.
Qed.

(** From two cleaned entries on, [singularity_spectrum] returns whenever
    [scaling_exponents] does. *)
Lemma spectrum_OK lag mfdfa q lim interp qc tau :
  _clean_q q = OK qc ->
  scaling_exponents np_log polyfit lag mfdfa q lim interp = OK (qc, tau) ->
  (2 <= length qc)%nat ->
  singularity_spectrum np_log polyfit lag mfdfa q lim interp
  = OK (alpha_of tau qc, f_of tau (alpha_of tau qc) qc).
Proof.
  intros Hq Hs Hn.
  destruct (scaling_tau_length lag mfdfa q lim interp qc _ _ Hq Hs) as [_ Hlen].
  rewrite (spectrum_unfold lag mfdfa q lim interp qc Hq), Hs. simpl.
  rewrite !gradient_OK by lia. simpl.
  unfold np.divide. rewrite broadcast_same
    by (rewrite !length_map, !length_seq; exact Hlen).
  simpl. fold (alpha_of tau qc).
  rewrite falpha_same_length by (try apply alpha_of_length; congruence).
  reflexivity.
Qed.

Lemma spectrum_inv lag mfdfa q lim interp qc alpha f :
  _clean_q q = OK qc ->
  singularity_spectrum np_log polyfit lag mfdfa q lim interp = OK (alpha, f) ->
  exists tau,
    scaling_exponents np_log polyfit lag mfdfa q lim interp = OK (qc, tau) /\
    (2 <= length qc)%nat /\ length tau = length qc /\
    alpha = alpha_of tau qc /\ f = f_of tau alpha qc.
Proof.
  intros Hq Hr.
  pose proof Hr as Hr'.
  rewrite (spectrum_unfold lag mfdfa q lim interp qc Hq) in Hr'.
  apply bind_OK in Hr' as ([q' tau] & Hs & Hr').
  destruct (scaling_tau_length lag mfdfa q lim interp qc _ _ Hq Hs) as [-> Hlen].
  apply bind_OK in Hr' as (gtau & _ & Hr').
  apply bind_OK in Hr' as (gq & Hgq & _).
  apply gradient_inv in Hgq as [Hn _].
  rewrite (spectrum_OK lag mfdfa q lim interp qc tau Hq Hs Hn) in Hr.
  injection Hr as <- <-. exists tau. auto.
Qed.

(** C3. For [tau], [alpha] and [q] of one length, [_falpha] returns [f]
    with [f[i] = q[i] * alpha[i] - tau[i]] at every index; and the pair
    ([alpha], [f]) that [singularity_spectrum] returns has the length of the
    cleaned [q] in both components. *)
Theorem falpha_formula_and_lengths :
  (forall tau alpha q : list float,
     length tau = length q -> length alpha = length q ->
     exists f, _falpha tau alpha q = OK f /\ length f = length q /\
       forall i, (i < length q)%nat ->
         nth i f 0%float = (nth i q 0 * nth i alpha 0 - nth i tau 0)%float)
  /\ (forall lag mfdfa q lim interp qc alpha f,
        _clean_q q = OK qc ->
        singularity_spectrum np_log polyfit lag mfdfa q lim interp
        = OK (alpha, f) ->
        length alpha = length qc /\ length f = length qc).
Proof.
  assert (Hf : forall tau alpha q : list float,
     length tau = length q -> length alpha = length q ->
     length (f_of tau alpha q) = length q).
  { intros tau alpha q Ht Ha. unfold f_of.
    rewrite !zip_with_length; try rewrite zip_with_length; congruence. }
  split.
  - intros tau alpha q Ht Ha. exists (f_of tau alpha q).
    split; [apply falpha_same_length; assumption |].
    split; [apply Hf; assumption |].
    intros i Hi. unfold f_of.
    rewrite (zip_with_nth PrimFloat.sub 0%float 0%float)
      by (try rewrite zip_with_length; congruence).
    rewrite (zip_with_nth PrimFloat.mul 0%float 0%float) by congruence.
    reflexivity.
  - intros lag mfdfa q lim interp qc alpha f Hq Hr.
    destruct (spectrum_inv lag mfdfa q lim interp qc alpha f Hq Hr)
      as (tau & _ & _ & Hlen & -> & ->).
    pose proof (alpha_of_length tau qc Hlen) as Ha.
    split; [exact Ha | apply Hf; assumption].
Qed.

(** C8. [interpolate] is never read: two calls of [_slopes],
    [hurst_exponents], [scaling_exponents] or [singularity_spectrum] that
    differ only in its value return the same result. *)
Theorem interpolate_ignored lag mfdfa q lim (interp1 interp2 : Z) :
  _slopes np_log polyfit lag mfdfa q lim interp1
  = _slopes np_log polyfit lag mfdfa q lim interp2
  /\ hurst_exponents np_log polyfit lag mfdfa q lim interp1
     = hurst_exponents np_log polyfit lag mfdfa q lim interp2
  /\ scaling_exponents np_log polyfit lag mfdfa q lim interp1
     = scaling_exponents np_log polyfit lag mfdfa q lim interp2
  /\ singularity_spectrum np_log polyfit lag mfdfa q lim interp1
     = singularity_spectrum np_log polyfit lag mfdfa q lim interp2.
Proof. repeat split; reflexivity. Qed.

(** ** Which exception can come from where *)

Lemma getitem_Error {A : Type} (l : list A) (i : Z) (e : exn) :
  np.getitem l i = Error e -> e = IndexError.
Proof.
  unfold np.getitem.
  destruct (_ && _)%bool; [destruct (nth_error _ _) |]; congruence.
Qed.

Lemma broadcast_Error f a b e :
  np.broadcast f a b = Error e -> e = ValueError_broadcast.
Proof.
  unfold np.broadcast. destruct (_ =? _)%nat; [discriminate |].
  destruct a as [| x [| x' a]]; destruct b as [| y [| y' b]]; congruence.
Qed.

Lemma gradient_Error f e : np.gradient f = Error e -> e = ValueError_gradient.
Proof. unfold np.gradient. destruct (_ <? _)%nat; congruence. Qed.

Lemma default_lim_slopes_Error lag lim e :
  default_lim_slopes lag lim = Error e -> e = IndexError.
Proof.
  destruct lim as [[lo |] [hi |]]; simpl; try discriminate.
  intros H. apply bind_Error in H as [H | (lo & _ & H)].
  - apply getitem_Error in H. exact H.
  - apply bind_Error in H as [H | (hi & _ & H)]; [| discriminate].
    apply getitem_Error in H. exact H.
Qed.

Lemma fit_slope_Error lag mfdfa lim i e :
  fit_slope np_log polyfit lag mfdfa lim i = Error e ->
  e = IndexError \/ e = PolyfitError.
Proof.
  unfold fit_slope, fit_y, np.slice_column.
  destruct (_ <? _)%nat; simpl; [| intros [= <-]; now left].
  destruct (polyfit _ _ _) as [coef |]; [| intros [= <-]; now right].
  intros H. apply getitem_Error in H. now left.
Qed.

Lemma slopes_Error lag mfdfa q lim interp qc e :
  _clean_q q = OK qc ->
  _slopes np_log polyfit lag mfdfa q lim interp = Error e ->
  e = IndexError \/ e = PolyfitError \/ e = ValueError_dimension.
Proof.
  intros Hq H.
  destruct (default_lim_slopes lag lim) as [lim' | e'] eqn:Hlim.
  - rewrite (slopes_unfold lag mfdfa q lim interp lim' qc Hlim Hq) in H.
    destruct (negb _); [injection H as <-; auto |].
    apply mapM_Error in H as (i & _ & H).
    apply fit_slope_Error in H. tauto.
  - unfold _slopes in H. rewrite Hlim in H. simpl in H. injection H as <-.
    apply default_lim_slopes_Error in Hlim. auto.
Qed.

Lemma scaling_Error lag mfdfa q lim interp qc e :
  _clean_q q = OK qc ->
  scaling_exponents np_log polyfit lag mfdfa q lim interp = Error e ->
  e <> ValueError_nonfinite /\ e <> ValueError_gradient.
Proof.
  intros Hq H. rewrite (scaling_unfold lag mfdfa q lim interp qc Hq) in H.
  apply bind_Error in H as [H | (h & _ & H)].
  - apply (slopes_Error lag mfdfa q _ interp qc e Hq) in H.
    split; intuition congruence.
  - apply bind_Error in H as [H | (qh & _ & H)]; [| discriminate].
    apply broadcast_Error in H. subst e. split; congruence.
Qed.

Lemma hurst_Error lag mfdfa q lim interp qc e :
  _clean_q q = OK qc ->
  hurst_exponents np_log polyfit lag mfdfa q lim interp = Error e ->
  e <> ValueError_nonfinite.
Proof.
  intros Hq H. rewrite (hurst_unfold lag mfdfa q lim interp qc Hq) in H.
  apply bind_Error in H as [H | (h & _ & H)]; [| discriminate].
  apply (slopes_Error lag mfdfa q _ interp qc e Hq) in H. intuition congruence.
Qed.

Lemma falpha_Error tau alpha q e :
  _falpha tau alpha q = Error e -> e = ValueError_broadcast.
Proof.
  unfold _falpha. intros H. apply bind_Error in H as [H | (qa & _ & H)];
    apply broadcast_Error in H; exact H.
Qed.

Lemma spectrum_Error lag mfdfa q lim interp qc e :
  _clean_q q = OK qc ->
  singularity_spectrum np_log polyfit lag mfdfa q lim interp = Error e ->
  e <> ValueError_nonfinite.
Proof.
  intros Hq H. rewrite (spectrum_unfold lag mfdfa q lim interp qc Hq) in H.
  apply bind_Error in H as [H | (qtau & _ & H)].
  { apply (scaling_Error lag mfdfa q lim interp qc e Hq) in H. tauto. }
  apply bind_Error in H as [H | (gtau & _ & H)].
  { apply gradient_Error in H. congruence. }
  apply bind_Error in H as [H | (gq & _ & H)].
  { apply gradient_Error in H. congruence. }
  apply bind_Error in H as [H | (alpha & _ & H)].
  { apply broadcast_Error in H. congruence. }
  apply bind_Error in H as [H | (f & _ & H)]; [| discriminate].
  apply falpha_Error in H. congruence.
Qed.

(** C7. When the moment orders hold a NaN or an infinite entry, the
    cleaner raises the non-finite ValueError, and so does each of the three
    public functions, whatever the lag, the matrix, the fit range and the
    line fit are (no fit has run); when every entry is finite the cleaner
    returns and none of the public functions raises that error. *)
Theorem nonfinite_q_rejected lag mfdfa q lim interp :
  (has_nonfinite q ->
     _clean_q q = Error ValueError_nonfinite /\
     hurst_exponents np_log polyfit lag mfdfa q lim interp
     = Error ValueError_nonfinite /\
     scaling_exponents np_log polyfit lag mfdfa q lim interp
     = Error ValueError_nonfinite /\
     singularity_spectrum np_log polyfit lag mfdfa q lim interp
     = Error ValueError_nonfinite)
  /\ (all_finite q ->
      (exists qc, _clean_q q = OK qc) /\
      hurst_exponents np_log polyfit lag mfdfa q lim interp
      <> Error ValueError_nonfinite /\
      scaling_exponents np_log polyfit lag mfdfa q lim interp
      <> Error ValueError_nonfinite /\
      singularity_spectrum np_log polyfit lag mfdfa q lim interp
      <> Error ValueError_nonfinite).
Proof.
  split.
  - intros H. apply clean_q_nonfinite in H.
    unfold hurst_exponents, scaling_exponents, singularity_spectrum.
    rewrite H. simpl. auto.
  - intros H. pose proof (clean_q_finite q H) as Hq.
    split; [eauto |]. split; [| split]; intros E.
    + apply (hurst_Error lag mfdfa q lim interp _ _ Hq) in E. congruence.
    + apply (scaling_Error lag mfdfa q lim interp _ _ Hq) in E. tauto.
    + apply (spectrum_Error lag mfdfa q lim interp _ _ Hq) in E. congruence.
Qed.

(** ** The dimension check *)

(** Past the fit-range substitution and the cleaning, [_slopes] raises the
    dimension error exactly when the column count is not the cleaned
    length. *)
Lemma slopes_dimension_check lag mfdfa q lim interp lim' qc :
  default_lim_slopes lag lim = OK lim' ->
  _clean_q q = OK qc ->
  (np.ncols mfdfa <> length qc ->
     _slopes np_log polyfit lag mfdfa q lim interp = Error ValueError_dimension)
  /\ (np.ncols mfdfa = length qc ->
      _slopes np_log polyfit lag mfdfa q lim interp <> Error ValueError_dimension).
Proof.
  intros Hlim Hq.
  rewrite (slopes_unfold lag mfdfa q lim interp lim' qc Hlim Hq).
  split; intros H.
  - apply Nat.eqb_neq in H. rewrite H. reflexivity.
  - apply Nat.eqb_eq in H. rewrite H. simpl. intros E.
    apply mapM_Error in E as (i & _ & E).
    apply fit_slope_Error in E as [E | E]; discriminate E.
Qed.

(** The three public functions never reach the lookup [lag[1]]: a
    mismatch always ends in the dimension error. *)
Lemma public_dimension_mismatch lag mfdfa q lim interp qc :
  _clean_q q = OK qc ->
  np.ncols mfdfa <> length qc ->
  hurst_exponents np_log polyfit lag mfdfa q lim interp
  = Error ValueError_dimension /\
  scaling_exponents np_log polyfit lag mfdfa q lim interp
  = Error ValueError_dimension /\
  singularity_spectrum np_log polyfit lag mfdfa q lim interp
  = Error ValueError_dimension.
Proof.
  intros Hq Hne.
  assert (Hs : _slopes np_log polyfit lag mfdfa q (default_lim lag lim) interp
               = Error ValueError_dimension).
  { eapply slopes_dimension_check; eauto.
    apply default_lim_slopes_set, default_lim_set. }
  assert (Hsc : scaling_exponents np_log polyfit lag mfdfa q lim interp
                = Error ValueError_dimension).
  { rewrite (scaling_unfold lag mfdfa q lim interp qc Hq), Hs. reflexivity. }
  split; [| split].
  - rewrite (hurst_unfold lag mfdfa q lim interp qc Hq), Hs. reflexivity.
  - exact Hsc.
  - rewrite (spectrum_unfold lag mfdfa q lim interp qc Hq), Hsc. reflexivity.
Qed.

(** ** The fit range *)

(** With both limits unset the public functions fit over
    [[1, lag.size // 2]]. *)
Lemma public_default_range lag mfdfa q interp :
  let explicit := (Some 1%Z, Some (Z.of_nat (length lag) / 2)%Z) in
  hurst_exponents np_log polyfit lag mfdfa q (None, None) interp
  = hurst_exponents np_log polyfit lag mfdfa q explicit interp /\
  scaling_exponents np_log polyfit lag mfdfa q (None, None) interp
  = scaling_exponents np_log polyfit lag mfdfa q explicit interp /\
  singularity_spectrum np_log polyfit lag mfdfa q (None, None) interp
  = singularity_spectrum np_log polyfit lag mfdfa q explicit interp.
Proof. repeat split; reflexivity. Qed.

(** With both limits unset [_slopes] fits over the lag values
    [[lag[1], lag[lag.size // 2]]] read as indices. *)
Lemma slopes_default_range lag mfdfa q interp lo hi :
  np.getitem lag 1%Z = OK lo ->
  np.getitem lag (Z.of_nat (length lag) / 2)%Z = OK hi ->
  _slopes np_log polyfit lag mfdfa q (None, None) interp
  = _slopes np_log polyfit lag mfdfa q (Some lo, Some hi) interp.
Proof.
  intros Hlo Hhi. unfold _slopes. simpl. rewrite Hlo, Hhi. reflexivity.
Qed.







(** ** The gradient *)

Lemma two_dx : (2 * np.dx)%float = 2%float.
Proof. reflexivity. Qed.

Lemma gradient_at_first (f : list float) :
  (2 <= length f)%nat ->
  np.gradient_at f 0 = (nth 1 f 0 - nth 0 f 0)%float.
Proof. intros _. unfold np.gradient_at. simpl. apply FloatFacts.div_1. Qed.

Lemma gradient_at_last (f : list float) :
  (2 <= length f)%nat ->
  np.gradient_at f (length f - 1)
  = (nth (length f - 1) f 0 - nth (length f - 2) f 0)%float.
Proof.
  intros H. unfold np.gradient_at.
  destruct (Nat.eqb_spec (length f - 1) 0) as [E | _]; [lia |].
  rewrite Nat.eqb_refl. apply FloatFacts.div_1.
Qed.

Lemma gradient_at_interior (f : list float) (i : nat) :
  (1 <= i)%nat -> (i + 1 < length f)%nat ->
  np.gradient_at f i = ((nth (i + 1) f 0 - nth (i - 1) f 0) / 2)%float.
Proof.
  intros H1 H2. unfold np.gradient_at.
  destruct (Nat.eqb_spec i 0) as [E | _]; [lia |].
  destruct (Nat.eqb_spec i (length f - 1)) as [E | _]; [lia |].
  rewrite two_dx. reflexivity.
Qed.

Lemma nth_map_seq (g : nat -> float) (n i : nat) (d : float) :
  (i < n)%nat -> nth i (map g (seq 0 n)) d = g i.
Proof.
  intros Hi. rewrite (nth_indep _ d (g 0%nat))
    by (rewrite length_map, length_seq; exact Hi).
  rewrite map_nth, seq_nth by exact Hi. reflexivity.
Qed.

Lemma alpha_of_nth (tau q : list float) (i : nat) :
  length tau = length q -> (i < length q)%nat ->
  nth i (alpha_of tau q) 0%float
  = (np.gradient_at tau i / np.gradient_at q i)%float.
Proof.
  intros Hlen Hi. unfold alpha_of.
  rewrite (zip_with_nth PrimFloat.div 0%float 0%float)
    by (rewrite !length_map, !length_seq; lia).
  rewrite !nth_map_seq by lia. reflexivity.
Qed.

(** ** No difference of two scaling exponents, or of two cleaned moment
    orders, is small enough for its half to lose a bit *)

Lemma keep_q_exp (v : float) :
  keep_q v = true -> Binary64.exp_ge (-56) (Prim2SF v).
Proof.
  unfold keep_q.
  rewrite !ltb_spec, FloatFacts.Prim2SF_tenth, FloatFacts.Prim2SF_neg_tenth.
  apply FloatFacts.SF_keep_exp.
Qed.

Lemma cleaned_entry_exp q qc (j : nat) :
  _clean_q q = OK qc -> (j < length qc)%nat ->
  Binary64.exp_ge (-1021) (Prim2SF (nth j qc 0%float)).
Proof.
  intros Hq Hj. apply clean_q_inv in Hq as [_ ->].
  pose proof (nth_In _ 0%float Hj) as Hin.
  apply filter_In in Hin as [_ Hkeep].
  apply FloatFacts.exp_ge_weaken with (E := (-56)%Z); [lia |].
  apply keep_q_exp, Hkeep.
Qed.

Lemma tau_entry_exp lag mfdfa q lim interp qc tau (j : nat) :
  _clean_q q = OK qc ->
  scaling_exponents np_log polyfit lag mfdfa q lim interp = OK (qc, tau) ->
  (j < length qc)%nat ->
  Binary64.exp_ge (-1021) (Prim2SF (nth j tau 0%float)).
Proof.
  intros Hq Hs Hj.
  destruct (scaling_inv lag mfdfa q lim interp qc _ Hq Hs) as (h & _ & Hlen & E).
  injection E as ->.
  rewrite (nth_map_lt _ _ j 0%float)
    by (rewrite zip_with_length; congruence).
  apply FloatFacts.exp_ge_weaken with (E := (-105)%Z); [lia |].
  apply FloatFacts.float_sub_one_exp.
Qed.

(** C2. When the cleaned [q] has at least two entries and
    [scaling_exponents] returns [tau], [singularity_spectrum] returns
    [alpha] with [alpha[0] = (tau[1] - tau[0]) / (q[1] - q[0])],
    [alpha[n-1] = (tau[n-1] - tau[n-2]) / (q[n-1] - q[n-2])] and, at every
    interior index [i], [alpha[i] = (tau[i+1] - tau[i-1]) / (q[i+1] - q[i-1])],
    as float64 values: the divisions by 1 and by 2 that np.gradient performs
    on both operands are exact here and cancel. *)
Theorem singularity_strength_gradient lag mfdfa q lim interp qc tau :
  _clean_q q = OK qc ->
  scaling_exponents np_log polyfit lag mfdfa q lim interp = OK (qc, tau) ->
  (2 <= length qc)%nat ->
  exists alpha f,
    singularity_spectrum np_log polyfit lag mfdfa q lim interp = OK (alpha, f) /\
    let n := length qc in
    let slope i j :=
      ((nth i tau 0 - nth j tau 0) / (nth i qc 0 - nth j qc 0))%float in
    nth 0 alpha 0%float = slope 1%nat 0%nat /\
    nth (n - 1) alpha 0%float = slope (n - 1)%nat (n - 2)%nat /\
    forall i, (1 <= i)%nat -> (i + 1 < n)%nat ->
      nth i alpha 0%float = slope (i + 1)%nat (i - 1)%nat.
Proof.
  intros Hq Hs Hn.
  destruct (scaling_tau_length lag mfdfa q lim interp qc _ _ Hq Hs) as [_ Hlen].
  exists (alpha_of tau qc), (f_of tau (alpha_of tau qc) qc).
  split; [apply spectrum_OK; assumption |].
  cbv zeta. split; [| split].
  - rewrite alpha_of_nth by lia.
    rewrite !gradient_at_first by lia. reflexivity.
  - rewrite alpha_of_nth by lia.
    rewrite <- Hlen at 1. rewrite (gradient_at_last tau) by lia.
    rewrite (gradient_at_last qc) by lia. rewrite Hlen. reflexivity.
  - intros i H1 H2. rewrite alpha_of_nth by lia.
    rewrite !gradient_at_interior by lia.
    apply FloatFacts.div_half_half; apply FloatFacts.float_sub_halves.
    + apply (tau_entry_exp lag mfdfa q lim interp qc tau); auto; lia.
    + apply (tau_entry_exp lag mfdfa q lim interp qc tau); auto; lia.
    + apply (cleaned_entry_exp q qc); auto; lia.
    + apply (cleaned_entry_exp q qc); auto; lia.
Qed.

End Properties.

(* ================================================================== *)
(** * Runs on the concrete inputs *)

Lemma sample_all_finite : all_finite Sample.q.
Proof. apply all_finite_forallb. vm_compute. reflexivity. Qed.

Lemma sample_has_nonfinite : has_nonfinite Sample.q_nan.
Proof. apply has_nonfinite_forallb. vm_compute. reflexivity. Qed.

(** C5, where the code departs from it.  On eight lags 4..11 and both
    limits unset, [_slopes] reads its range from the lag values
    [lag[1] = 5] and [lag[4] = 8]: it fits lags [9, 10, 11], where the
    explicit range [[1, lag.size // 2] = [1, 4]] fits lags [5, 6, 7]; with a
    least-squares line fit the two calls return different slopes. *)
Theorem slopes_default_range_reads_lag_values :
  (forall np_log polyfit interp,
     _slopes np_log polyfit Sample.lag Sample.mfdfa Sample.q (None, None) interp
     = _slopes np_log polyfit Sample.lag Sample.mfdfa Sample.q
         (Some 5%Z, Some 8%Z) interp)
  /\ np.slice (Some 5%Z) (Some 8%Z) Sample.lag = [9; 10; 11]%Z
  /\ np.slice (Some 1%Z) (Some (Z.of_nat (length Sample.lag) / 2)%Z) Sample.lag
     = [5; 6; 7]%Z
  /\ _slopes Sample.log Sample.polyfit Sample.lag Sample.mfdfa Sample.q
       (None, None) 0
     <> _slopes Sample.log Sample.polyfit Sample.lag Sample.mfdfa Sample.q
          (Some 1%Z, Some (Z.of_nat (length Sample.lag) / 2)%Z) 0.
Proof.
  split; [| split; [| split]].
  - intros np_log polyfit interp.
    apply slopes_default_range; reflexivity.
  - reflexivity.
  - reflexivity.
  - intros E.
    apply (f_equal (fun r => match r with
                             | OK (x :: _) => (x <? 0.5004)%float
                             | _ => false
                             end)) in E.
    vm_compute in E. discriminate E.
Qed.

(** C6, where the code departs from it.  On a lag array of one entry and
    both limits unset, a call of [_slopes] whose matrix has two columns for
    one cleaned moment order ends in IndexError, raised by [lag[1]], and not
    in the dimension error. *)
Theorem slopes_short_lag_index_error np_log polyfit interp :
  _clean_q Sample.one_q = OK [2%float]
  /\ np.ncols Sample.two_columns <> length [2%float]
  /\ _slopes np_log polyfit Sample.short_lag Sample.two_columns Sample.one_q
       (None, None) interp
     = Error IndexError.
Proof.
  split; [vm_compute; reflexivity |]. split; [simpl; lia | reflexivity].
Qed.

Lemma scaling_exponents_tau_witness :
  exists tau,
    scaling_exponents Sample.log Sample.polyfit Sample.lag Sample.mfdfa
      Sample.q (None, None) 0 = OK (Sample.qc, tau) /\
    length tau = length Sample.qc /\ length Sample.h = length Sample.qc /\
    forall j, (j < length Sample.qc)%nat ->
      nth j tau 0%float
      = (nth j Sample.qc 0 * nth j Sample.h 0 - 1)%float.
Proof.
  apply (scaling_exponents_tau Sample.log Sample.polyfit Sample.lag
           Sample.mfdfa Sample.q (None, None) 0%Z Sample.qc Sample.h);
    vm_compute; reflexivity.
Defined.

Lemma singularity_strength_gradient_witness :
  exists alpha f,
    singularity_spectrum Sample.log Sample.polyfit Sample.lag Sample.mfdfa
      Sample.q (None, None) 0 = OK (alpha, f) /\
    let n := length Sample.qc in
    let slope i j :=
      ((nth i Sample.tau 0 - nth j Sample.tau 0)
       / (nth i Sample.qc 0 - nth j Sample.qc 0))%float in
    nth 0 alpha 0%float = slope 1%nat 0%nat /\
    nth (n - 1) alpha 0%float = slope (n - 1)%nat (n - 2)%nat /\
    forall i, (1 <= i)%nat -> (i + 1 < n)%nat ->
      nth i alpha 0%float = slope (i + 1)%nat (i - 1)%nat.
Proof.
  apply (singularity_strength_gradient Sample.log Sample.polyfit Sample.lag
           Sample.mfdfa Sample.q (None, None) 0%Z Sample.qc Sample.tau);
    [vm_compute; reflexivity | vm_compute; reflexivity | simpl; lia].
Defined.

Lemma falpha_formula_and_lengths_witness :
  (exists f, _falpha Sample.tau Sample.alpha Sample.qc = OK f /\
     length f = length Sample.qc /\
     forall i, (i < length Sample.qc)%nat ->
       nth i f 0%float
       = (nth i Sample.qc 0 * nth i Sample.alpha 0 - nth i Sample.tau 0)%float)
  /\ (length Sample.alpha = length Sample.qc /\
      length Sample.f = length Sample.qc).
Proof.
  split.
  - apply (proj1 (falpha_formula_and_lengths Sample.log Sample.polyfit));
      reflexivity.
  - apply (proj2 (falpha_formula_and_lengths Sample.log Sample.polyfit)
             Sample.lag Sample.mfdfa Sample.q (None, None) 0%Z);
      vm_compute; reflexivity.
Defined.

Lemma clean_q_threshold_witness :
  _clean_q Sample.q
  = OK (filter (fun v => negb (abs v <=? 0.1)%float) (np.data Sample.q)).
Proof. apply (proj1 clean_q_threshold), sample_all_finite. Defined.

Lemma nonfinite_q_rejected_witness :
  (_clean_q Sample.q_nan = Error ValueError_nonfinite /\
   hurst_exponents Sample.log Sample.polyfit Sample.lag Sample.mfdfa
     Sample.q_nan (None, None) 0 = Error ValueError_nonfinite /\
   scaling_exponents Sample.log Sample.polyfit Sample.lag Sample.mfdfa
     Sample.q_nan (None, None) 0 = Error ValueError_nonfinite /\
   singularity_spectrum Sample.log Sample.polyfit Sample.lag Sample.mfdfa
     Sample.q_nan (None, None) 0 = Error ValueError_nonfinite)
  /\ ((exists qc, _clean_q Sample.q = OK qc) /\
      hurst_exponents Sample.log Sample.polyfit Sample.lag Sample.mfdfa
        Sample.q (None, None) 0 <> Error ValueError_nonfinite /\
      scaling_exponents Sample.log Sample.polyfit Sample.lag Sample.mfdfa
        Sample.q (None, None) 0 <> Error ValueError_nonfinite /\
      singularity_spectrum Sample.log Sample.polyfit Sample.lag Sample.mfdfa
        Sample.q (None, None) 0 <> Error ValueError_nonfinite).
Proof.
  split.
  - apply (proj1 (nonfinite_q_rejected Sample.log Sample.polyfit Sample.lag
                    Sample.mfdfa Sample.q_nan (None, None) 0%Z)).
    exact sample_has_nonfinite.
  - apply (proj2 (nonfinite_q_rejected Sample.log Sample.polyfit Sample.lag
                    Sample.mfdfa Sample.q (None, None) 0%Z)).
    exact sample_all_finite.
Defined.

Lemma clean_q_idempotent_witness :
  exists qc, _clean_q Sample.q = OK qc /\ _clean_q (np.array1d qc) = OK qc.
Proof. apply (clean_q_idempotent Sample.q), sample_all_finite. Defined.


(* ================================================================== *)
(** * Further properties of the module *)

(** ** Lists, slices and the loop *)

Lemma mapM_nth {A B : Type} (f : A -> result B) (da : A) (db : B) (l : list A) :
  forall r i, mapM f l = OK r -> (i < length l)%nat ->
    f (nth i l da) = OK (nth i r db).
Proof.
  induction l as [| a l IH]; simpl; intros r i H Hi; [lia |].
  apply bind_OK in H as (b & Hb & H).
  apply bind_OK in H as (bs & Hbs & H). injection H as <-.
  destruct i as [| i]; simpl; [exact Hb |]. apply IH; [exact Hbs | lia].
Qed.

Lemma slice_map {A B : Type} (g : A -> B) (lo hi : option Z) (l : list A) :
  np.slice lo hi (map g l) = map g (np.slice lo hi l).
Proof.
  unfold np.slice. rewrite length_map, skipn_map, firstn_map. reflexivity.
Qed.

Lemma slice_length {A : Type} (lo hi : option Z) (l : list A) :
  length (np.slice lo hi l)
  = (min (np.slice_index (length l) (Z.of_nat (length l)) hi) (length l)
     - np.slice_index (length l) 0 lo)%nat.
Proof.
  unfold np.slice. rewrite length_firstn, length_skipn. lia.
Qed.

(** The length of a slice depends on the sequence through its length
    only. *)
Lemma slice_length_eq {A B : Type} (lo hi : option Z) (l : list A) (l' : list B) :
  length l = length l' ->
  length (np.slice lo hi l) = length (np.slice lo hi l').
Proof. intros H. rewrite !slice_length, H. reflexivity. Qed.

Lemma slice_past_end {A : Type} (lo : Z) (hi : option Z) (l : list A) :
  (Z.of_nat (length l) <= lo)%Z -> np.slice (Some lo) hi l = [].
Proof.
  intros H. apply length_zero_iff_nil. rewrite slice_length.
  unfold np.slice_index at 2.
  destruct (Z.ltb_spec lo 0); lia.
Qed.

Lemma getitem_OK {A : Type} (d : A) (l : list A) (i : Z) :
  (0 <= i < Z.of_nat (length l))%Z ->
  np.getitem l i = OK (nth (Z.to_nat i) l d).
Proof.
  intros H. unfold np.getitem.
  destruct (Z.ltb_spec i 0); [lia |].
  destruct (Z.leb_spec 0 i); [| lia].
  destruct (Z.ltb_spec i (Z.of_nat (length l))); [| lia]. simpl.
  rewrite (nth_error_nth' l d) by lia. reflexivity.
Qed.

Lemma getitem_out_of_range {A : Type} (l : list A) (i : Z) :
  (Z.of_nat (length l) <= i)%Z -> np.getitem l i = Error IndexError.
Proof.
  intros H. unfold np.getitem.
  destruct (Z.ltb_spec i 0); [lia |].
  destruct (Z.ltb_spec i (Z.of_nat (length l))); [lia |].
  rewrite andb_false_r. reflexivity.
Qed.

Lemma map_zip_with {A B C D : Type} (g : C -> D) (f : A -> B -> C) (a : list A) :
  forall b, map g (np.zip_with f a b) = np.zip_with (fun x y => g (f x y)) a b.
Proof.
  induction a as [| x a IH]; intros [| y b]; simpl; try reflexivity.
  rewrite IH. reflexivity.
Qed.

(** ** Float comparisons: the kept side of the band *)

Lemma SF_keep_gt (m0 : positive) (e0 : Z) (x : spec_float) :
  SFltb x (S754_finite true m0 e0) || SFltb (S754_finite false m0 e0) x = true ->
  SFltb (S754_finite false m0 e0) (SFabs x) = true.
Proof.
  destruct x as [s | s | | s m e].
  - destruct s; intros H; discriminate H.
  - destruct s; intros _; reflexivity.
  - intros H; discriminate H.
  - unfold SFltb, SFabs, SFcompare.
    fold (Pos.compare m m0). fold (Pos.compare m0 m).
    rewrite (Z.compare_antisym e e0), (Pos.compare_antisym m m0).
    destruct s; destruct (e ?= e0)%Z; cbn [CompOpp orb];
      try congruence;
      destruct (m ?= m0)%positive; cbn [CompOpp orb]; congruence.
Qed.

(** An entry the mask keeps has a magnitude above 0.1. *)
Lemma keep_q_gt (v : float) : keep_q v = true -> (0.1 <? abs v)%float = true.
Proof.
  unfold keep_q.
  rewrite !ltb_spec, abs_spec.
  rewrite FloatFacts.Prim2SF_tenth, FloatFacts.Prim2SF_neg_tenth.
  apply SF_keep_gt.
Qed.

Section Coverage.

Variable np_log : float -> float.
Variable polyfit : list float -> list float -> Z -> option (list float).

(** ** Inversions *)

Lemma default_lim_slopes_known (lag : list Z) (lim : limits) :
  lim <> (None, None) \/ (2 <= length lag)%nat ->
  exists lim', default_lim_slopes lag lim = OK lim'.
Proof.
  intros [H | H].
  - exists lim. apply default_lim_slopes_set, H.
  - destruct lim as [[lo |] [hi |]]; simpl; eauto.
    pose proof (Z.div_pos (Z.of_nat (length lag)) 2 ltac:(lia) ltac:(lia)).
    pose proof (Z.div_lt (Z.of_nat (length lag)) 2 ltac:(lia) ltac:(lia)).
    rewrite (getitem_OK 0%Z) by lia.
    rewrite (getitem_OK 0%Z) by lia. simpl. eauto.
Qed.

Lemma slopes_OK_inv lag mfdfa q lim interp h :
  _slopes np_log polyfit lag mfdfa q lim interp = OK h ->
  exists lim' qc,
    default_lim_slopes lag lim = OK lim' /\ _clean_q q = OK qc /\
    np.ncols mfdfa = length qc /\
    mapM (fit_slope np_log polyfit lag mfdfa lim') (seq 0 (length qc)) = OK h.
Proof.
  intros H.
  destruct (default_lim_slopes lag lim) as [lim' | e] eqn:Hlim;
    [| unfold _slopes in H; rewrite Hlim in H; discriminate].
  destruct (_clean_q q) as [qc | e] eqn:Hq;
    [| unfold _slopes in H; rewrite Hlim, Hq in H; discriminate].
  rewrite (slopes_unfold np_log polyfit lag mfdfa q lim interp lim' qc Hlim Hq) in H.
  destruct (Nat.eqb_spec (np.ncols mfdfa) (length qc)) as [E | E];
    simpl in H; [| discriminate].
  exists lim', qc. auto.
Qed.

Lemma hurst_OK_clean lag mfdfa q lim interp qc h :
  hurst_exponents np_log polyfit lag mfdfa q lim interp = OK (qc, h) ->
  _clean_q q = OK qc.
Proof.
  unfold hurst_exponents. destruct (_clean_q q) as [q0 | e]; simpl;
    [| discriminate].
  intros H. apply bind_OK in H as (h0 & _ & H). congruence.
Qed.

Lemma scaling_OK_clean lag mfdfa q lim interp qc tau :
  scaling_exponents np_log polyfit lag mfdfa q lim interp = OK (qc, tau) ->
  _clean_q q = OK qc.
Proof.
  unfold scaling_exponents. destruct (_clean_q q) as [q0 | e]; simpl;
    [| discriminate].
  intros H. apply bind_OK in H as (h0 & _ & H).
  apply bind_OK in H as (qh & _ & H). congruence.
Qed.

Lemma public_clean_Error lag mfdfa q lim interp e :
  _clean_q q = Error e ->
  hurst_exponents np_log polyfit lag mfdfa q lim interp = Error e /\
  scaling_exponents np_log polyfit lag mfdfa q lim interp = Error e /\
  singularity_spectrum np_log polyfit lag mfdfa q lim interp = Error e.
Proof.
  intros H. unfold hurst_exponents, scaling_exponents, singularity_spectrum.
  rewrite H. simpl. auto.
Qed.

(** What [scaling_exponents] returns, from what [_slopes] returns. *)
Lemma scaling_of_slopes lag mfdfa q lim interp qc h :
  _clean_q q = OK qc ->
  _slopes np_log polyfit lag mfdfa q (default_lim lag lim) interp = OK h ->
  scaling_exponents np_log polyfit lag mfdfa q lim interp
  = OK (qc, np.zip_with (fun qj hj => qj * hj - 1)%float qc h).
Proof.
  intros Hq Hs.
  destruct (slopes_length np_log polyfit lag mfdfa q _ interp qc h Hq Hs)
    as [Hlen _].
  rewrite (scaling_unfold np_log polyfit lag mfdfa q lim interp qc Hq), Hs.
  simpl. unfold np.multiply. rewrite broadcast_same by congruence. simpl.
  rewrite map_zip_with. reflexivity.
Qed.

(** X1. [hurst_exponents] hands back what [_slopes] gives over the fit
    range in force: on slopes [h] it returns the cleaned [q] with [h]
    itself, one slope per cleaned moment order and per matrix column, and
    an exception of [_slopes] is the exception of [hurst_exponents]. *)
Theorem hurst_exponents_returns_slopes lag mfdfa q lim interp qc :
  _clean_q q = OK qc ->
  (forall h,
     _slopes np_log polyfit lag mfdfa q (default_lim lag lim) interp = OK h ->
     hurst_exponents np_log polyfit lag mfdfa q lim interp = OK (qc, h) /\
     length h = length qc /\ length qc = np.ncols mfdfa)
  /\ (forall e,
        _slopes np_log polyfit lag mfdfa q (default_lim lag lim) interp = Error e ->
        hurst_exponents np_log polyfit lag mfdfa q lim interp = Error e).
Proof.
  intros Hq. split.
  - intros h Hs.
    destruct (slopes_length np_log polyfit lag mfdfa q _ interp qc h Hq Hs)
      as [Hlen Hcol].
    rewrite (hurst_unfold np_log polyfit lag mfdfa q lim interp qc Hq), Hs.
    auto.
  - intros e Hs.
    rewrite (hurst_unfold np_log polyfit lag mfdfa q lim interp qc Hq), Hs.
    reflexivity.
Qed.

(** X2. [scaling_exponents] and [hurst_exponents] stand or fall together
    on the same arguments: when one returns so does the other, with the
    same cleaned [q] and [tau[j] = q[j] * h[j] - 1], and when
    [hurst_exponents] raises, [scaling_exponents] raises the same
    exception. *)
Theorem scaling_follows_hurst lag mfdfa q lim interp :
  (forall qc h,
     hurst_exponents np_log polyfit lag mfdfa q lim interp = OK (qc, h) ->
     scaling_exponents np_log polyfit lag mfdfa q lim interp
     = OK (qc, np.zip_with (fun qj hj => qj * hj - 1)%float qc h))
  /\ (forall e,
        hurst_exponents np_log polyfit lag mfdfa q lim interp = Error e ->
        scaling_exponents np_log polyfit lag mfdfa q lim interp = Error e)
  /\ (forall qc tau,
        scaling_exponents np_log polyfit lag mfdfa q lim interp = OK (qc, tau) ->
        exists h,
          hurst_exponents np_log polyfit lag mfdfa q lim interp = OK (qc, h)).
Proof.
  split; [| split].
  - intros qc h H. pose proof (hurst_OK_clean _ _ _ _ _ _ _ H) as Hq.
    rewrite (hurst_unfold np_log polyfit lag mfdfa q lim interp qc Hq) in H.
    apply bind_OK in H as (h0 & Hs & H). injection H as ->.
    apply scaling_of_slopes; assumption.
  - intros e H. destruct (_clean_q q) as [qc | e'] eqn:Hq.
    + rewrite (hurst_unfold np_log polyfit lag mfdfa q lim interp qc Hq) in H.
      apply bind_Error in H as [H | (h & _ & H)]; [| discriminate].
      rewrite (scaling_unfold np_log polyfit lag mfdfa q lim interp qc Hq), H.
      reflexivity.
    + destruct (public_clean_Error lag mfdfa q lim interp e' Hq) as (Hh & Hs & _).
      congruence.
  - intros qc tau H. pose proof (scaling_OK_clean _ _ _ _ _ _ _ H) as Hq.
    destruct (scaling_inv np_log polyfit lag mfdfa q lim interp qc _ Hq H)
      as (h & Hs & _ & _).
    exists h.
    rewrite (hurst_unfold np_log polyfit lag mfdfa q lim interp qc Hq), Hs.
    reflexivity.
Qed.

(** X3. What [singularity_spectrum] does is decided by
    [scaling_exponents] and the number of cleaned moment orders: an
    exception of [scaling_exponents] is passed on; with fewer than two
    cleaned moment orders np.gradient raises ValueError; from two on it
    returns [alpha] and [f] of the cleaned length with
    [f[i] = q[i] * alpha[i] - tau[i]] for the [tau] of
    [scaling_exponents]. *)
Theorem singularity_spectrum_outcome lag mfdfa q lim interp :
  (forall e,
     scaling_exponents np_log polyfit lag mfdfa q lim interp = Error e ->
     singularity_spectrum np_log polyfit lag mfdfa q lim interp = Error e)
  /\ (forall qc tau,
        scaling_exponents np_log polyfit lag mfdfa q lim interp = OK (qc, tau) ->
        ((length qc < 2)%nat ->
           singularity_spectrum np_log polyfit lag mfdfa q lim interp
           = Error ValueError_gradient)
        /\ ((2 <= length qc)%nat ->
            exists alpha f,
              singularity_spectrum np_log polyfit lag mfdfa q lim interp
              = OK (alpha, f) /\
              length alpha = length qc /\ length f = length qc /\
              forall i, (i < length qc)%nat ->
                nth i f 0%float
                = (nth i qc 0 * nth i alpha 0 - nth i tau 0)%float)).
Proof.
  split.
  - intros e H. destruct (_clean_q q) as [qc | e'] eqn:Hq.
    + rewrite (spectrum_unfold np_log polyfit lag mfdfa q lim interp qc Hq), H.
      reflexivity.
    + destruct (public_clean_Error lag mfdfa q lim interp e' Hq) as (_ & Hs & Hsp).
      congruence.
  - intros qc tau H. pose proof (scaling_OK_clean _ _ _ _ _ _ _ H) as Hq.
    destruct (scaling_tau_length np_log polyfit lag mfdfa q lim interp qc _ _ Hq H)
      as [_ Hlen].
    split; intros Hn.
    + rewrite (spectrum_unfold np_log polyfit lag mfdfa q lim interp qc Hq), H.
      simpl. unfold np.gradient.
      destruct (Nat.ltb_spec (length tau) 2); [reflexivity | lia].
    + exists (alpha_of tau qc), (f_of tau (alpha_of tau qc) qc).
      pose proof (alpha_of_length tau qc Hlen) as Ha.
      split; [apply spectrum_OK; assumption |].
      split; [exact Ha |]. unfold f_of. split.
      * rewrite !zip_with_length; try rewrite zip_with_length; congruence.
      * intros i Hi.
        rewrite (zip_with_nth PrimFloat.sub 0%float 0%float)
          by (try rewrite zip_with_length; congruence).
        rewrite (zip_with_nth PrimFloat.mul 0%float 0%float) by congruence.
        reflexivity.
Qed.

(** X4. The cleaned moment orders can be fed back: each of [_slopes],
    [hurst_exponents], [scaling_exponents] and [singularity_spectrum]
    returns on the cleaned [q] what it returns on [q]. *)
Theorem cleaned_q_fed_back lag mfdfa q lim interp qc :
  _clean_q q = OK qc ->
  _slopes np_log polyfit lag mfdfa (np.array1d qc) lim interp
  = _slopes np_log polyfit lag mfdfa q lim interp /\
  hurst_exponents np_log polyfit lag mfdfa (np.array1d qc) lim interp
  = hurst_exponents np_log polyfit lag mfdfa q lim interp /\
  scaling_exponents np_log polyfit lag mfdfa (np.array1d qc) lim interp
  = scaling_exponents np_log polyfit lag mfdfa q lim interp /\
  singularity_spectrum np_log polyfit lag mfdfa (np.array1d qc) lim interp
  = singularity_spectrum np_log polyfit lag mfdfa q lim interp.
Proof.
  intros Hq. pose proof (clean_q_cleaned q qc Hq) as Hq'.
  assert (Hs : forall l,
             _slopes np_log polyfit lag mfdfa (np.array1d qc) l interp
             = _slopes np_log polyfit lag mfdfa q l interp)
    by (intros l; apply slopes_cleaned, Hq).
  assert (Hsc : scaling_exponents np_log polyfit lag mfdfa (np.array1d qc) lim interp
                = scaling_exponents np_log polyfit lag mfdfa q lim interp).
  { rewrite (scaling_unfold np_log polyfit lag mfdfa q lim interp qc Hq).
    rewrite (scaling_unfold np_log polyfit lag mfdfa _ lim interp qc Hq').
    rewrite Hs. reflexivity. }
  split; [apply Hs |]. split; [| split; [exact Hsc |]].
  - rewrite (hurst_unfold np_log polyfit lag mfdfa q lim interp qc Hq).
    rewrite (hurst_unfold np_log polyfit lag mfdfa _ lim interp qc Hq').
    rewrite Hs. reflexivity.
  - rewrite (spectrum_unfold np_log polyfit lag mfdfa q lim interp qc Hq).
    rewrite (spectrum_unfold np_log polyfit lag mfdfa _ lim interp qc Hq').
    rewrite Hsc. reflexivity.
Qed.

(** X5. Every cleaned moment order is an entry of the input, is finite
    and has a magnitude above 0.1; the cleaned array is never longer than
    the input. *)
Theorem cleaned_entries_outside_band q qc :
  _clean_q q = OK qc ->
  (length qc <= length (np.data q))%nat /\
  forall v, In v qc ->
    In v (np.data q) /\ is_nan v = false /\ is_infinity v = false /\
    (0.1 <? abs v)%float = true.
Proof.
  intros Hq. apply clean_q_inv in Hq as [Hfin ->]. split.
  - apply filter_length_le.
  - intros v Hv. apply filter_In in Hv as [Hin Hkeep].
    destruct (Hfin v Hin) as [Hn Hi].
    repeat split; auto. apply keep_q_gt, Hkeep.
Qed.

(** X6. Cleaning works entry by entry: the cleaned concatenation of two
    arrays is the concatenation of the two cleaned arrays, and it raises
    exactly when cleaning one of them raises. *)
Theorem clean_q_concatenation (a b : list float) :
  _clean_q (np.array1d (a ++ b))
  = (x <- _clean_q (np.array1d a) ;;
     y <- _clean_q (np.array1d b) ;;
     OK (x ++ y)).
Proof.
  unfold _clean_q, np.asarray_chkfinite. simpl.
  rewrite forallb_app.
  destruct (forallb np.isfinite a); simpl; [| reflexivity].
  destruct (forallb np.isfinite b); simpl; [| reflexivity].
  rewrite filter_app. reflexivity.
Qed.

(** X7. Called with both limits unset on a lag array of fewer than two
    entries, [_slopes] raises IndexError, whatever the matrix and the moment
    orders are: the lookup [lag[1]] comes before every check. *)
Theorem slopes_unset_range_short_lag lag mfdfa q interp :
  (length lag < 2)%nat ->
  _slopes np_log polyfit lag mfdfa q (None, None) interp = Error IndexError.
Proof.
  intros H. unfold _slopes. simpl.
  rewrite getitem_out_of_range by lia. reflexivity.
Qed.

(** The lookup that opens [_slopes] succeeds on two entries or more. *)
Lemma default_lim_slopes_unset (lag : list Z) :
  (2 <= length lag)%nat ->
  default_lim_slopes lag (None, None)
  = OK (Some (nth 1 lag 0%Z), Some (nth (length lag / 2) lag 0%Z)).
Proof.
  intros H. simpl.
  pose proof (Z.div_pos (Z.of_nat (length lag)) 2 ltac:(lia) ltac:(lia)).
  pose proof (Z.div_lt (Z.of_nat (length lag)) 2 ltac:(lia) ltac:(lia)).
  rewrite (getitem_OK 0%Z) by lia. simpl.
  rewrite (getitem_OK 0%Z) by lia. simpl.
  change 2%Z with (Z.of_nat 2). rewrite <- Nat2Z.inj_div, Nat2Z.id.
  reflexivity.
Qed.

(** X8. Called with both limits unset on a lag array of at least two
    entries, [_slopes] returns what it returns for the explicit range whose
    bounds are the lag values [lag[1]] and [lag[lag.size // 2]]. *)
Theorem slopes_unset_range_lag_values lag mfdfa q interp :
  (2 <= length lag)%nat ->
  _slopes np_log polyfit lag mfdfa q (None, None) interp
  = _slopes np_log polyfit lag mfdfa q
      (Some (nth 1 lag 0%Z), Some (nth (length lag / 2) lag 0%Z)) interp.
Proof.
  intros H. unfold _slopes.
  rewrite (default_lim_slopes_unset lag H).
  rewrite default_lim_slopes_set by discriminate. reflexivity.
Qed.

Lemma mapM_ext_in {A B : Type} (f g : A -> result B) (l : list A) :
  (forall a, In a l -> f a = g a) -> mapM f l = mapM g l.
Proof.
  induction l as [| a l IH]; simpl; intros H; [reflexivity |].
  rewrite (H a) by auto. rewrite IH by auto. reflexivity.
Qed.

(** X9. When the matrix has one row per lag and the second lag is not
    below the number of lags, [_slopes] with both limits unset fits
    nothing: past the dimension check, every column's slope comes from
    polyfit called on two empty arrays. *)
Theorem slopes_unset_range_empty_window lag mfdfa q interp qc :
  (2 <= length lag)%nat ->
  (Z.of_nat (length lag) <= nth 1 lag 0)%Z ->
  length (np.rows mfdfa) = length lag ->
  _clean_q q = OK qc ->
  _slopes np_log polyfit lag mfdfa q (None, None) interp =
  if negb (np.ncols mfdfa =? length qc)%nat then Error ValueError_dimension
  else mapM (fun _ : nat =>
               match polyfit [] [] 1%Z with
               | None => Error PolyfitError
               | Some coef => np.getitem coef 1%Z
               end) (seq 0 (length qc)).
Proof.
  intros Hn Hlo Hrows Hq.
  rewrite (slopes_unfold np_log polyfit lag mfdfa q (None, None) interp _ qc
             (default_lim_slopes_unset lag Hn) Hq).
  destruct (Nat.eqb_spec (np.ncols mfdfa) (length qc)) as [E | E]; simpl;
    [| reflexivity].
  apply mapM_ext_in. intros i Hi. apply in_seq in Hi.
  unfold fit_slope, fit_x, fit_y, np.slice_column. simpl.
  destruct (Nat.ltb_spec i (np.ncols mfdfa)); [| lia]. simpl.
  rewrite !slice_past_end by lia. reflexivity.
Qed.
(** ** The order of the checks and the exceptions that can escape *)

(** X10. Once its fit range is known (a limit is given, or the lag array
    has two entries to look up), [_slopes] checks in this order: moment
    orders with a NaN or an infinity raise the non-finite ValueError,
    whatever the matrix; then a column count that is not the cleaned length
    raises the dimension ValueError, and an equal one never does. *)
Theorem slopes_checks_in_order lag mfdfa q lim interp :
  lim <> (None, None) \/ (2 <= length lag)%nat ->
  (has_nonfinite q ->
     _slopes np_log polyfit lag mfdfa q lim interp = Error ValueError_nonfinite)
  /\ (forall qc, _clean_q q = OK qc ->
        (np.ncols mfdfa <> length qc ->
           _slopes np_log polyfit lag mfdfa q lim interp
           = Error ValueError_dimension)
        /\ (np.ncols mfdfa = length qc ->
            _slopes np_log polyfit lag mfdfa q lim interp
            <> Error ValueError_dimension)).
Proof.
  intros Hr. destruct (default_lim_slopes_known lag lim Hr) as (lim' & Hlim).
  split.
  - intros Hq. apply clean_q_nonfinite in Hq.
    unfold _slopes. rewrite Hlim. simpl. rewrite Hq. reflexivity.
  - intros qc Hq.
    apply (slopes_dimension_check np_log polyfit lag mfdfa q lim interp lim' qc);
      assumption.
Qed.

Lemma getitem_1_Error {A : Type} (l : list A) (e : exn) :
  np.getitem l 1%Z = Error e -> e = IndexError /\ (length l < 2)%nat.
Proof.
  unfold np.getitem. simpl.
  destruct (Z.ltb_spec 1 (Z.of_nat (length l))) as [H | H]; simpl.
  - destruct l as [| a [| b l]]; simpl in *; try lia. discriminate.
  - intros [= <-]. split; [reflexivity | lia].
Qed.

(** How [_slopes] can fail when a public function calls it. *)
Lemma public_slopes_Error lag mfdfa q lim interp qc e :
  _clean_q q = OK qc ->
  _slopes np_log polyfit lag mfdfa q (default_lim lag lim) interp = Error e ->
  (e = ValueError_dimension /\ np.ncols mfdfa <> length qc) \/
  (np.ncols mfdfa = length qc /\
   (e = PolyfitError \/
    (e = IndexError /\
     exists x y c, polyfit x y 1%Z = Some c /\ (length c < 2)%nat))).
Proof.
  intros Hq H.
  rewrite (slopes_unfold np_log polyfit lag mfdfa q _ interp _ qc
             (default_lim_slopes_set lag _ (default_lim_set lag lim)) Hq) in H.
  destruct (Nat.eqb_spec (np.ncols mfdfa) (length qc)) as [E | E]; simpl in H.
  - right. split; [exact E |].
    apply mapM_Error in H as (i & Hi & H). apply in_seq in Hi.
    unfold fit_slope, fit_y, np.slice_column in H.
    destruct (Nat.ltb_spec i (np.ncols mfdfa)); [| lia]. simpl in H.
    destruct (polyfit _ _ _) as [c |] eqn:Hp.
    + apply getitem_1_Error in H as [-> Hc]. right. split; [reflexivity |].
      eauto.
    + injection H as <-. now left.
  - left. injection H as <-. auto.
Qed.

Lemma scaling_Error_slopes lag mfdfa q lim interp qc e :
  _clean_q q = OK qc ->
  scaling_exponents np_log polyfit lag mfdfa q lim interp = Error e ->
  _slopes np_log polyfit lag mfdfa q (default_lim lag lim) interp = Error e.
Proof.
  intros Hq H.
  destruct (_slopes np_log polyfit lag mfdfa q (default_lim lag lim) interp)
    as [h | e'] eqn:Hs.
  - rewrite (scaling_of_slopes lag mfdfa q lim interp qc h Hq Hs) in H.
    discriminate.
  - rewrite (scaling_unfold np_log polyfit lag mfdfa q lim interp qc Hq), Hs in H.
    simpl in H. congruence.
Qed.

Lemma hurst_Error_slopes lag mfdfa q lim interp qc e :
  _clean_q q = OK qc ->
  hurst_exponents np_log polyfit lag mfdfa q lim interp = Error e ->
  _slopes np_log polyfit lag mfdfa q (default_lim lag lim) interp = Error e.
Proof.
  intros Hq H.
  rewrite (hurst_unfold np_log polyfit lag mfdfa q lim interp qc Hq) in H.
  apply bind_Error in H as [H | (h & _ & H)]; [exact H | discriminate].
Qed.

Lemma spectrum_short lag mfdfa q lim interp qc tau :
  _clean_q q = OK qc ->
  scaling_exponents np_log polyfit lag mfdfa q lim interp = OK (qc, tau) ->
  (length qc < 2)%nat ->
  singularity_spectrum np_log polyfit lag mfdfa q lim interp
  = Error ValueError_gradient.
Proof.
  intros Hq H Hn.
  destruct (scaling_tau_length np_log polyfit lag mfdfa q lim interp qc _ _ Hq H)
    as [_ Hlen].
  rewrite (spectrum_unfold np_log polyfit lag mfdfa q lim interp qc Hq), H.
  simpl. unfold np.gradient.
  destruct (Nat.ltb_spec (length tau) 2); [reflexivity | lia].
Qed.

Lemma spectrum_Error_cases lag mfdfa q lim interp qc e :
  _clean_q q = OK qc ->
  singularity_spectrum np_log polyfit lag mfdfa q lim interp = Error e ->
  scaling_exponents np_log polyfit lag mfdfa q lim interp = Error e \/
  (e = ValueError_gradient /\ (length qc < 2)%nat).
Proof.
  intros Hq H.
  destruct (scaling_exponents np_log polyfit lag mfdfa q lim interp)
    as [[q' tau] | e'] eqn:Hs.
  - destruct (scaling_tau_length np_log polyfit lag mfdfa q lim interp qc _ _ Hq Hs)
      as [-> Hlen].
    destruct (Nat.lt_ge_cases (length qc) 2) as [Hn | Hn].
    + rewrite (spectrum_short lag mfdfa q lim interp qc tau Hq Hs Hn) in H.
      injection H as <-. auto.
    + rewrite (spectrum_OK np_log polyfit lag mfdfa q lim interp qc tau Hq Hs Hn)
        in H. discriminate.
  - rewrite (spectrum_unfold np_log polyfit lag mfdfa q lim interp qc Hq), Hs in H.
    simpl in H. left. congruence.
Qed.

(** X11. The dimension check as the three public functions see it: a
    fluctuation matrix whose column count is not the cleaned length makes
    each of them raise the dimension ValueError, whatever the lag array, the
    fit range and the line fit are; with equal counts none of them raises
    it. *)
Theorem public_dimension_check lag mfdfa q lim interp qc :
  _clean_q q = OK qc ->
  (np.ncols mfdfa <> length qc ->
     hurst_exponents np_log polyfit lag mfdfa q lim interp
     = Error ValueError_dimension /\
     scaling_exponents np_log polyfit lag mfdfa q lim interp
     = Error ValueError_dimension /\
     singularity_spectrum np_log polyfit lag mfdfa q lim interp
     = Error ValueError_dimension)
  /\ (np.ncols mfdfa = length qc ->
      hurst_exponents np_log polyfit lag mfdfa q lim interp
      <> Error ValueError_dimension /\
      scaling_exponents np_log polyfit lag mfdfa q lim interp
      <> Error ValueError_dimension /\
      singularity_spectrum np_log polyfit lag mfdfa q lim interp
      <> Error ValueError_dimension).
Proof.
  intros Hq. split; intros Hc.
  - apply (public_dimension_mismatch np_log polyfit lag mfdfa q lim interp qc);
      assumption.
  - assert (Hs : _slopes np_log polyfit lag mfdfa q (default_lim lag lim) interp
                 <> Error ValueError_dimension).
    { intros H.
      apply (public_slopes_Error lag mfdfa q lim interp qc _ Hq) in H.
      destruct H as [[_ H] | [_ [H | [H _]]]]; congruence. }
    split; [| split]; intros H.
    + apply Hs, (hurst_Error_slopes lag mfdfa q lim interp qc _ Hq H).
    + apply Hs, (scaling_Error_slopes lag mfdfa q lim interp qc _ Hq H).
    + apply (spectrum_Error_cases lag mfdfa q lim interp qc _ Hq) in H.
      destruct H as [H | [H _]]; [| discriminate].
      apply Hs, (scaling_Error_slopes lag mfdfa q lim interp qc _ Hq H).
Qed.

(** X12. The exceptions the public functions let escape.
    [hurst_exponents] and [scaling_exponents] raise only the non-finite
    ValueError, the dimension ValueError, what polyfit raises, or
    IndexError; [singularity_spectrum] adds the ValueError of np.gradient.
    The products and quotients of arrays never fail to broadcast, and
    IndexError needs a polyfit that returns fewer than two coefficients. *)
Theorem public_functions_exceptions lag mfdfa q lim interp :
  (forall e,
     hurst_exponents np_log polyfit lag mfdfa q lim interp = Error e \/
     scaling_exponents np_log polyfit lag mfdfa q lim interp = Error e ->
     e = ValueError_nonfinite \/ e = ValueError_dimension \/
     e = PolyfitError \/ e = IndexError)
  /\ (forall e,
        singularity_spectrum np_log polyfit lag mfdfa q lim interp = Error e ->
        e = ValueError_nonfinite \/ e = ValueError_dimension \/
        e = PolyfitError \/ e = IndexError \/ e = ValueError_gradient)
  /\ ((forall x y c, polyfit x y 1%Z = Some c -> (2 <= length c)%nat) ->
      hurst_exponents np_log polyfit lag mfdfa q lim interp <> Error IndexError /\
      scaling_exponents np_log polyfit lag mfdfa q lim interp <> Error IndexError /\
      singularity_spectrum np_log polyfit lag mfdfa q lim interp
      <> Error IndexError).
Proof.
  destruct (_clean_q q) as [qc | e0] eqn:Hq.
  - assert (Hs : forall e,
               _slopes np_log polyfit lag mfdfa q (default_lim lag lim) interp
               = Error e ->
               e = ValueError_dimension \/ e = PolyfitError \/
               (e = IndexError /\
                exists x y c, polyfit x y 1%Z = Some c /\ (length c < 2)%nat)).
    { intros e H.
      apply (public_slopes_Error lag mfdfa q lim interp qc _ Hq) in H. tauto. }
    assert (Hhs : forall e,
               hurst_exponents np_log polyfit lag mfdfa q lim interp = Error e \/
               scaling_exponents np_log polyfit lag mfdfa q lim interp = Error e ->
               _slopes np_log polyfit lag mfdfa q (default_lim lag lim) interp
               = Error e).
    { intros e [H | H].
      - apply (hurst_Error_slopes lag mfdfa q lim interp qc _ Hq H).
      - apply (scaling_Error_slopes lag mfdfa q lim interp qc _ Hq H). }
    split; [| split].
    + intros e H. apply Hhs, Hs in H. tauto.
    + intros e H.
      apply (spectrum_Error_cases lag mfdfa q lim interp qc _ Hq) in H.
      destruct H as [H | [-> _]]; [| tauto].
      assert (H' := Hhs e (or_intror H)). apply Hs in H'. tauto.
    + intros Hpf.
      assert (Hno : _slopes np_log polyfit lag mfdfa q (default_lim lag lim) interp
                    <> Error IndexError).
      { intros H. apply Hs in H.
        destruct H as [H | [H | [_ (x & y & c & Hc & Hlen)]]];
          try discriminate.
        apply Hpf in Hc. lia. }
      split; [| split]; intros H.
      * apply Hno, Hhs. now left.
      * apply Hno, Hhs. now right.
      * apply (spectrum_Error_cases lag mfdfa q lim interp qc _ Hq) in H.
        destruct H as [H | [H _]]; [| discriminate].
        apply Hno, Hhs. now right.
  - pose proof (clean_q_Error q e0 Hq) as ->.
    destruct (public_clean_Error lag mfdfa q lim interp _ Hq) as (Hh & Hs & Hsp).
    rewrite Hh, Hs, Hsp.
    split; [| split].
    + intros e [[= <-] | [= <-]]; auto.
    + intros e [= <-]. auto.
    + intros _. repeat split; discriminate.
Qed.
(** ** The fit window *)

Lemma default_window_length (lag : list Z) :
  length (np.slice (Some 1%Z) (Some (Z.of_nat (length lag) / 2)%Z) lag)
  = (length lag / 2 - 1)%nat.
Proof.
  rewrite slice_length. unfold np.slice_index.
  change 2%Z with (Z.of_nat 2). rewrite <- Nat2Z.inj_div.
  destruct (Z.ltb_spec (Z.of_nat (length lag / 2)) 0); [lia |].
  change (1 <? 0)%Z with false. cbv iota.
  pose proof (Nat.Div0.div_le_upper_bound (length lag) 2 (length lag)
                ltac:(lia)) as Hle.
  destruct (length lag) as [| [| n]] eqn:E.
  - reflexivity.
  - reflexivity.
  - rewrite Z.min_l by lia. rewrite Z.min_l by lia.
    rewrite Nat2Z.id. change (Z.to_nat 1) with 1%nat. lia.
Qed.

(** X13. With both limits unset the three public functions return what
    they return for the explicit range [[1, lag.size // 2]], and the lags
    they fit are [lag.size // 2 - 1] in number: none for a lag array of
    fewer than four entries. *)
Theorem public_unset_range_window lag mfdfa q interp :
  let explicit := (Some 1%Z, Some (Z.of_nat (length lag) / 2)%Z) in
  hurst_exponents np_log polyfit lag mfdfa q (None, None) interp
  = hurst_exponents np_log polyfit lag mfdfa q explicit interp /\
  scaling_exponents np_log polyfit lag mfdfa q (None, None) interp
  = scaling_exponents np_log polyfit lag mfdfa q explicit interp /\
  singularity_spectrum np_log polyfit lag mfdfa q (None, None) interp
  = singularity_spectrum np_log polyfit lag mfdfa q explicit interp /\
  length (fit_x np_log lag (default_lim lag (None, None)))
  = (length lag / 2 - 1)%nat /\
  ((length lag < 4)%nat -> fit_x np_log lag (default_lim lag (None, None)) = []).
Proof.
  intros explicit.
  assert (Hlen : length (fit_x np_log lag (default_lim lag (None, None)))
                 = (length lag / 2 - 1)%nat).
  { unfold fit_x. rewrite !length_map. apply default_window_length. }
  repeat split; try reflexivity; [exact Hlen |].
  intros Hn. apply length_zero_iff_nil. rewrite Hlen.
  destruct (length lag) as [| [| [| [| n]]]]; try reflexivity. lia.
Qed.

(** X14. When the fluctuation matrix has one row per lag, polyfit always
    receives two arrays of one length: for every fit range and every
    column, the logarithms of the sliced lags and of the sliced column. *)
Theorem fit_arrays_same_length lag mfdfa lim i :
  length (np.rows mfdfa) = length lag ->
  (i < np.ncols mfdfa)%nat ->
  exists y,
    fit_y np_log mfdfa lim i = OK y /\
    length y = length (fit_x np_log lag lim).
Proof.
  intros Hrows Hi. unfold fit_y, fit_x, np.slice_column.
  destruct (Nat.ltb_spec i (np.ncols mfdfa)); [| lia]. simpl.
  eexists. split; [reflexivity |].
  rewrite !length_map. apply slice_length_eq, Hrows.
Qed.

(** ** The slopes, one by one *)

Lemma getitem_1_OK {A : Type} (l : list A) (a : A) :
  np.getitem l 1%Z = OK a -> nth_error l 1 = Some a.
Proof.
  unfold np.getitem. simpl.
  destruct (Z.ltb_spec 1 (Z.of_nat (length l))) as [H | H]; simpl;
    [| discriminate].
  destruct l as [| x [| y l]]; simpl in *; try lia. congruence.
Qed.

Lemma slopes_fit_slope lag mfdfa q lim interp h :
  _slopes np_log polyfit lag mfdfa q lim interp = OK h ->
  exists lim',
    default_lim_slopes lag lim = OK lim' /\
    length h = np.ncols mfdfa /\
    forall i, (i < length h)%nat ->
      fit_slope np_log polyfit lag mfdfa lim' i = OK (nth i h 0%float).
Proof.
  intros H.
  destruct (slopes_OK_inv lag mfdfa q lim interp h H)
    as (lim' & qc & Hlim & Hq & Hcol & Hm).
  pose proof (mapM_length _ _ _ Hm) as Hlen. rewrite length_seq in Hlen.
  exists lim'. split; [exact Hlim |]. split; [congruence |].
  intros i Hi.
  pose proof (mapM_nth _ 0%nat 0%float _ _ i Hm) as Hn.
  rewrite length_seq, seq_nth in Hn by lia. apply Hn. lia.
Qed.

(** X15. Each slope [_slopes] returns is coefficient 1 of the polynomial
    polyfit fits, with degree 1, to the logarithms of the lags and of the
    entries of that slope's own column, both sliced by the fit range; there
    is one slope per column. *)
Theorem slopes_entries lag mfdfa q lim interp h :
  _slopes np_log polyfit lag mfdfa q lim interp = OK h ->
  exists lim',
    default_lim_slopes lag lim = OK lim' /\
    length h = np.ncols mfdfa /\
    forall i, (i < length h)%nat ->
      exists coef,
        polyfit
          (map np_log
             (map np.float_of_int (np.slice (fst lim') (snd lim') lag)))
          (map np_log
             (map (fun r => nth i r 0%float)
                (np.slice (fst lim') (snd lim') (np.rows mfdfa))))
          1%Z = Some coef /\
        nth_error coef 1 = Some (nth i h 0%float).
Proof.
  intros H.
  destruct (slopes_fit_slope lag mfdfa q lim interp h H)
    as (lim' & Hlim & Hlen & Hfit).
  exists lim'. split; [exact Hlim |]. split; [exact Hlen |].
  intros i Hi. specialize (Hfit i Hi).
  unfold fit_slope, fit_x, fit_y, np.slice_column in Hfit.
  destruct (Nat.ltb_spec i (np.ncols mfdfa)); [| lia]. simpl in Hfit.
  destruct (polyfit _ _ _) as [coef |]; [| discriminate].
  exists coef. split; [reflexivity |]. apply getitem_1_OK, Hfit.
Qed.

(** X16. A slope depends on the fluctuation matrix through its own column
    only: two matrices that agree on column [i] get the same slope [i],
    whatever their other columns hold. *)
Theorem slope_depends_on_own_column lag m1 m2 q lim interp h1 h2 i :
  _slopes np_log polyfit lag m1 q lim interp = OK h1 ->
  _slopes np_log polyfit lag m2 q lim interp = OK h2 ->
  map (fun r => nth i r 0%float) (np.rows m1)
  = map (fun r => nth i r 0%float) (np.rows m2) ->
  (i < length h1)%nat ->
  nth i h1 0%float = nth i h2 0%float.
Proof.
  intros H1 H2 Hcol Hi.
  destruct (slopes_fit_slope lag m1 q lim interp h1 H1)
    as (lim1 & Hlim1 & Hlen1 & Hfit1).
  destruct (slopes_fit_slope lag m2 q lim interp h2 H2)
    as (lim2 & Hlim2 & Hlen2 & Hfit2).
  assert (lim2 = lim1) as -> by congruence.
  assert (Hlen : length h1 = length h2).
  { destruct (slopes_OK_inv lag m1 q lim interp h1 H1)
      as (l1 & qc1 & _ & Hq1 & Hc1 & _).
    destruct (slopes_OK_inv lag m2 q lim interp h2 H2)
      as (l2 & qc2 & _ & Hq2 & Hc2 & _).
    congruence. }
  specialize (Hfit1 i Hi). specialize (Hfit2 i ltac:(lia)).
  assert (E : fit_slope np_log polyfit lag m1 lim1 i
              = fit_slope np_log polyfit lag m2 lim1 i).
  { unfold fit_slope, fit_y, np.slice_column.
    destruct (Nat.ltb_spec i (np.ncols m1)); [| lia].
    destruct (Nat.ltb_spec i (np.ncols m2)); [| lia].
    rewrite <- !slice_map, Hcol. reflexivity. }
  congruence.
Qed.

(** ** Moment orders at the edges *)

(** X17. When every moment order is finite and outside the band
    ([q < -0.1] or [q > 0.1]), nothing is removed: the [q] returned is the
    input, entry for entry, and [h], [tau], [alpha] and [f] have the input's
    length. *)
Theorem outputs_keep_input_length lag mfdfa q lim interp :
  all_finite q ->
  (forall v, In v (np.data q) -> keep_q v = true) ->
  _clean_q q = OK (np.data q)
  /\ (forall q' h,
        hurst_exponents np_log polyfit lag mfdfa q lim interp = OK (q', h) ->
        q' = np.data q /\ length h = length (np.data q))
  /\ (forall q' tau,
        scaling_exponents np_log polyfit lag mfdfa q lim interp = OK (q', tau) ->
        q' = np.data q /\ length tau = length (np.data q))
  /\ (forall alpha f,
        singularity_spectrum np_log polyfit lag mfdfa q lim interp
        = OK (alpha, f) ->
        length alpha = length (np.data q) /\ length f = length (np.data q)).
Proof.
  intros Hfin Hkeep.
  assert (Hq : _clean_q q = OK (np.data q)).
  { rewrite (clean_q_finite q Hfin). f_equal.
    apply forallb_filter_id, forallb_forall, Hkeep. }
  split; [exact Hq |]. split; [| split].
  - intros q' h H. pose proof (hurst_OK_clean _ _ _ _ _ _ _ H) as Hq'.
    assert (q' = np.data q) as -> by congruence. split; [reflexivity |].
    rewrite (hurst_unfold np_log polyfit lag mfdfa q lim interp _ Hq) in H.
    apply bind_OK in H as (h0 & Hs & H). injection H as <-.
    apply (slopes_length np_log polyfit lag mfdfa q _ interp _ _ Hq Hs).
  - intros q' tau H.
    apply (scaling_tau_length np_log polyfit lag mfdfa q lim interp _ _ _ Hq H).
  - intros alpha f H.
    destruct (spectrum_inv np_log polyfit lag mfdfa q lim interp _ alpha f Hq H)
      as (tau & _ & _ & Hlen & -> & ->).
    pose proof (alpha_of_length tau (np.data q) Hlen) as Ha.
    split; [exact Ha |]. unfold f_of.
    rewrite !zip_with_length; try rewrite zip_with_length; congruence.
Qed.

Lemma filter_none {A : Type} (p : A -> bool) (l : list A) :
  (forall a, In a l -> p a = false) -> filter p l = [].
Proof.
  induction l as [| a l IH]; simpl; intros H; [reflexivity |].
  rewrite (H a) by auto. apply IH. auto.
Qed.

(** X18. When every moment order is finite and inside the band (an empty
    [q] included), the cleaned [q] is empty.  Against a matrix that has
    columns, each public function raises the dimension ValueError; against a
    matrix of no column, [hurst_exponents] and [scaling_exponents] return
    two empty arrays without any fit, and [singularity_spectrum] raises the
    ValueError of np.gradient. *)
Theorem all_moment_orders_in_band lag mfdfa q lim interp :
  all_finite q ->
  (forall v, In v (np.data q) -> keep_q v = false) ->
  _clean_q q = OK []
  /\ (np.ncols mfdfa <> 0%nat ->
      hurst_exponents np_log polyfit lag mfdfa q lim interp
      = Error ValueError_dimension /\
      scaling_exponents np_log polyfit lag mfdfa q lim interp
      = Error ValueError_dimension /\
      singularity_spectrum np_log polyfit lag mfdfa q lim interp
      = Error ValueError_dimension)
  /\ (np.ncols mfdfa = 0%nat ->
      hurst_exponents np_log polyfit lag mfdfa q lim interp = OK ([], []) /\
      scaling_exponents np_log polyfit lag mfdfa q lim interp = OK ([], []) /\
      singularity_spectrum np_log polyfit lag mfdfa q lim interp
      = Error ValueError_gradient).
Proof.
  intros Hfin Hband.
  assert (Hq : _clean_q q = OK []).
  { rewrite (clean_q_finite q Hfin). f_equal. apply filter_none, Hband. }
  split; [exact Hq |]. split; intros Hc.
  - apply (public_dimension_mismatch np_log polyfit lag mfdfa q lim interp []);
      assumption.
  - assert (Hs : _slopes np_log polyfit lag mfdfa q (default_lim lag lim) interp
                 = OK []).
    { rewrite (slopes_unfold np_log polyfit lag mfdfa q _ interp _ []
                 (default_lim_slopes_set lag _ (default_lim_set lag lim)) Hq).
      rewrite Hc. reflexivity. }
    assert (Hsc : scaling_exponents np_log polyfit lag mfdfa q lim interp
                  = OK ([], [])).
    { rewrite (scaling_of_slopes lag mfdfa q lim interp [] [] Hq Hs).
      reflexivity. }
    split; [| split; [exact Hsc |]].
    + rewrite (hurst_unfold np_log polyfit lag mfdfa q lim interp [] Hq), Hs.
      reflexivity.
    + apply (spectrum_short lag mfdfa q lim interp [] [] Hq Hsc). simpl. lia.
Qed.

(** X19. [_slopes] never reads the values of the moment orders: two
    arrays of moment orders that clean to the same number of entries give
    the same slopes (or the same exception). *)
Theorem slopes_ignore_q_values lag mfdfa q1 q2 lim interp qc1 qc2 :
  _clean_q q1 = OK qc1 ->
  _clean_q q2 = OK qc2 ->
  length qc1 = length qc2 ->
  _slopes np_log polyfit lag mfdfa q1 lim interp
  = _slopes np_log polyfit lag mfdfa q2 lim interp.
Proof.
  intros H1 H2 Hlen. unfold _slopes.
  destruct (default_lim_slopes lag lim) as [lim' | e]; simpl; [| reflexivity].
  rewrite H1, H2. simpl.
  rewrite (chkfinite_cleaned q1 qc1 H1), (chkfinite_cleaned q2 qc2 H2).
  simpl. unfold np.len. simpl. rewrite Hlen. reflexivity.
Qed.


End Coverage.

(* ================================================================== *)
(** * Runs of the further properties *)

Lemma sample_clean : _clean_q Sample.q = OK Sample.qc.
Proof. vm_compute. reflexivity. Qed.

Lemma sample_polyfit_two_coefficients (x y c : list float) :
  Sample.polyfit x y 1%Z = Some c -> (2 <= length c)%nat.
Proof.
  unfold Sample.polyfit. destruct (_ || _)%bool; [discriminate |].
  intros [= <-]. simpl. lia.
Qed.

Lemma sample_qc_outside_band (v : float) :
  In v (np.data (np.array1d Sample.qc)) -> keep_q v = true.
Proof.
  simpl. intros [<- | [<- | [<- | []]]]; vm_compute; reflexivity.
Qed.

Lemma band_all_finite : all_finite Cases.q_band.
Proof. apply all_finite_forallb. vm_compute. reflexivity. Qed.

Lemma band_all_removed (v : float) :
  In v (np.data Cases.q_band) -> keep_q v = false.
Proof.
  simpl. intros [<- | [<- | [<- | []]]]; vm_compute; reflexivity.
Qed.

Lemma hurst_exponents_returns_slopes_witness :
  hurst_exponents Sample.log Sample.polyfit Sample.lag Sample.mfdfa Sample.q
    (None, None) 0 = OK (Sample.qc, Sample.h) /\
  length Sample.h = length Sample.qc /\
  length Sample.qc = np.ncols Sample.mfdfa.
Proof.
  apply (proj1 (hurst_exponents_returns_slopes Sample.log Sample.polyfit
                  Sample.lag Sample.mfdfa Sample.q (None, None) 0%Z Sample.qc
                  sample_clean)).
  vm_compute. reflexivity.
Defined.

Lemma scaling_follows_hurst_witness :
  scaling_exponents Sample.log Sample.polyfit Sample.lag Sample.mfdfa Sample.q
    (None, None) 0
  = OK (Sample.qc,
        np.zip_with (fun qj hj => qj * hj - 1)%float Sample.qc Sample.h).
Proof.
  apply (proj1 (scaling_follows_hurst Sample.log Sample.polyfit Sample.lag
                  Sample.mfdfa Sample.q (None, None) 0%Z)).
  vm_compute. reflexivity.
Defined.

Lemma singularity_spectrum_outcome_witness :
  exists alpha f,
    singularity_spectrum Sample.log Sample.polyfit Sample.lag Sample.mfdfa
      Sample.q (None, None) 0 = OK (alpha, f) /\
    length alpha = length Sample.qc /\ length f = length Sample.qc /\
    forall i, (i < length Sample.qc)%nat ->
      nth i f 0%float
      = (nth i Sample.qc 0 * nth i alpha 0 - nth i Sample.tau 0)%float.
Proof.
  apply (proj2 (singularity_spectrum_outcome Sample.log Sample.polyfit
                  Sample.lag Sample.mfdfa Sample.q (None, None) 0%Z)
           Sample.qc Sample.tau).
  - vm_compute. reflexivity.
  - simpl. lia.
Defined.

Lemma cleaned_q_fed_back_witness :
  _slopes Sample.log Sample.polyfit Sample.lag Sample.mfdfa
    (np.array1d Sample.qc) (None, None) 0
  = _slopes Sample.log Sample.polyfit Sample.lag Sample.mfdfa Sample.q
      (None, None) 0 /\
  hurst_exponents Sample.log Sample.polyfit Sample.lag Sample.mfdfa
    (np.array1d Sample.qc) (None, None) 0
  = hurst_exponents Sample.log Sample.polyfit Sample.lag Sample.mfdfa Sample.q
      (None, None) 0 /\
  scaling_exponents Sample.log Sample.polyfit Sample.lag Sample.mfdfa
    (np.array1d Sample.qc) (None, None) 0
  = scaling_exponents Sample.log Sample.polyfit Sample.lag Sample.mfdfa
      Sample.q (None, None) 0 /\
  singularity_spectrum Sample.log Sample.polyfit Sample.lag Sample.mfdfa
    (np.array1d Sample.qc) (None, None) 0
  = singularity_spectrum Sample.log Sample.polyfit Sample.lag Sample.mfdfa
      Sample.q (None, None) 0.
Proof.
  apply (cleaned_q_fed_back Sample.log Sample.polyfit Sample.lag Sample.mfdfa
           Sample.q (None, None) 0%Z Sample.qc sample_clean).
Defined.

Lemma cleaned_entries_outside_band_witness :
  (length Sample.qc <= length (np.data Sample.q))%nat /\
  forall v, In v Sample.qc ->
    In v (np.data Sample.q) /\ is_nan v = false /\ is_infinity v = false /\
    (0.1 <? abs v)%float = true.
Proof.
  apply (cleaned_entries_outside_band Sample.q Sample.qc sample_clean).
Defined.

Lemma slopes_unset_range_short_lag_witness :
  _slopes Sample.log Sample.polyfit Sample.short_lag Sample.mfdfa Sample.q_nan
    (None, None) 0 = Error IndexError.
Proof.
  apply (slopes_unset_range_short_lag Sample.log Sample.polyfit
           Sample.short_lag Sample.mfdfa Sample.q_nan 0%Z).
  simpl. lia.
Defined.

Lemma slopes_unset_range_lag_values_witness :
  _slopes Sample.log Sample.polyfit Sample.lag Sample.mfdfa Sample.q
    (None, None) 0
  = _slopes Sample.log Sample.polyfit Sample.lag Sample.mfdfa Sample.q
      (Some (nth 1 Sample.lag 0%Z),
       Some (nth (length Sample.lag / 2) Sample.lag 0%Z)) 0.
Proof.
  apply (slopes_unset_range_lag_values Sample.log Sample.polyfit Sample.lag
           Sample.mfdfa Sample.q 0%Z).
  simpl. lia.
Defined.

Lemma slopes_unset_range_empty_window_witness :
  _slopes Sample.log Sample.polyfit Cases.wide_lag Sample.mfdfa Sample.q
    (None, None) 0 =
  if negb (np.ncols Sample.mfdfa =? length Sample.qc)%nat
  then Error ValueError_dimension
  else mapM (fun _ : nat =>
               match Sample.polyfit [] [] 1%Z with
               | None => Error PolyfitError
               | Some coef => np.getitem coef 1%Z
               end) (seq 0 (length Sample.qc)).
Proof.
  apply (slopes_unset_range_empty_window Sample.log Sample.polyfit
           Cases.wide_lag Sample.mfdfa Sample.q 0%Z Sample.qc).
  - simpl. lia.
  - simpl. lia.
  - reflexivity.
  - exact sample_clean.
Defined.

Lemma slopes_checks_in_order_witness :
  _slopes Sample.log Sample.polyfit Sample.lag Sample.mfdfa Sample.q_nan
    (None, None) 0 = Error ValueError_nonfinite /\
  _slopes Sample.log Sample.polyfit Sample.lag Sample.mfdfa Sample.one_q
    (None, None) 0 = Error ValueError_dimension.
Proof.
  split.
  - apply (proj1 (slopes_checks_in_order Sample.log Sample.polyfit Sample.lag
                    Sample.mfdfa Sample.q_nan (None, None) 0%Z
                    (or_intror (le_S _ _ (le_S _ _ (le_S _ _ (le_S _ _
                       (le_S _ _ (le_S _ _ (le_n 2)))))))))).
    exact sample_has_nonfinite.
  - apply (proj2 (slopes_checks_in_order Sample.log Sample.polyfit Sample.lag
                    Sample.mfdfa Sample.one_q (None, None) 0%Z
                    (or_intror (le_S _ _ (le_S _ _ (le_S _ _ (le_S _ _
                       (le_S _ _ (le_S _ _ (le_n 2)))))))))
             [2%float]).
    + vm_compute. reflexivity.
    + simpl. lia.
Defined.

Lemma public_dimension_check_witness :
  hurst_exponents Sample.log Sample.polyfit Sample.lag Sample.mfdfa
    Sample.one_q (None, None) 0 = Error ValueError_dimension /\
  scaling_exponents Sample.log Sample.polyfit Sample.lag Sample.mfdfa
    Sample.one_q (None, None) 0 = Error ValueError_dimension /\
  singularity_spectrum Sample.log Sample.polyfit Sample.lag Sample.mfdfa
    Sample.one_q (None, None) 0 = Error ValueError_dimension.
Proof.
  apply (proj1 (public_dimension_check Sample.log Sample.polyfit Sample.lag
                  Sample.mfdfa Sample.one_q (None, None) 0%Z [2%float]
                  ltac:(vm_compute; reflexivity))).
  simpl. lia.
Defined.

Lemma public_functions_exceptions_witness :
  hurst_exponents Sample.log Sample.polyfit Sample.lag Sample.mfdfa Sample.q
    (None, None) 0 <> Error IndexError /\
  scaling_exponents Sample.log Sample.polyfit Sample.lag Sample.mfdfa Sample.q
    (None, None) 0 <> Error IndexError /\
  singularity_spectrum Sample.log Sample.polyfit Sample.lag Sample.mfdfa
    Sample.q (None, None) 0 <> Error IndexError.
Proof.
  apply (proj2 (proj2 (public_functions_exceptions Sample.log Sample.polyfit
                         Sample.lag Sample.mfdfa Sample.q (None, None) 0%Z))).
  exact sample_polyfit_two_coefficients.
Defined.

Lemma public_unset_range_window_witness :
  fit_x Sample.log Sample.short_lag (default_lim Sample.short_lag (None, None))
  = [].
Proof.
  apply (public_unset_range_window Sample.log Sample.polyfit Sample.short_lag
           Sample.mfdfa Sample.q 0%Z).
  simpl. lia.
Defined.

Lemma fit_arrays_same_length_witness :
  exists y,
    fit_y Sample.log Sample.mfdfa (Some 1%Z, Some 4%Z) 1 = OK y /\
    length y = length (fit_x Sample.log Sample.lag (Some 1%Z, Some 4%Z)).
Proof.
  apply (fit_arrays_same_length Sample.log Sample.lag Sample.mfdfa
           (Some 1%Z, Some 4%Z) 1).
  - reflexivity.
  - simpl. lia.
Defined.

Lemma slope_depends_on_own_column_witness :
  nth 1 Sample.h 0%float = nth 1 Cases.h_other 0%float.
Proof.
  apply (slope_depends_on_own_column Sample.log Sample.polyfit Sample.lag
           Sample.mfdfa Cases.other_columns Sample.q (Some 1%Z, Some 4%Z) 0%Z
           Sample.h Cases.h_other 1).
  - vm_compute. reflexivity.
  - vm_compute. reflexivity.
  - reflexivity.
  - simpl. lia.
Defined.

Lemma slopes_entries_witness :
  exists lim',
    default_lim_slopes Sample.lag (Some 1%Z, Some 4%Z) = OK lim' /\
    length Sample.h = np.ncols Sample.mfdfa /\
    forall i, (i < length Sample.h)%nat ->
      exists coef,
        Sample.polyfit
          (map Sample.log
             (map np.float_of_int (np.slice (fst lim') (snd lim') Sample.lag)))
          (map Sample.log
             (map (fun r => nth i r 0%float)
                (np.slice (fst lim') (snd lim') (np.rows Sample.mfdfa))))
          1%Z = Some coef /\
        nth_error coef 1 = Some (nth i Sample.h 0%float).
Proof.
  apply (slopes_entries Sample.log Sample.polyfit Sample.lag Sample.mfdfa
           Sample.q (Some 1%Z, Some 4%Z) 0%Z Sample.h).
  vm_compute. reflexivity.
Defined.

Lemma outputs_keep_input_length_witness :
  _clean_q (np.array1d Sample.qc) = OK Sample.qc /\
  length Sample.h = length Sample.qc /\
  length Sample.tau = length Sample.qc /\
  length Sample.alpha = length Sample.qc /\
  length Sample.f = length Sample.qc.
Proof.
  pose proof (outputs_keep_input_length Sample.log Sample.polyfit Sample.lag
                Sample.mfdfa (np.array1d Sample.qc) (None, None) 0%Z
                ltac:(apply all_finite_forallb; vm_compute; reflexivity)
                sample_qc_outside_band) as (Hq & Hh & Ht & Ha).
  split; [exact Hq |].
  split; [apply (Hh Sample.qc Sample.h); vm_compute; reflexivity |].
  split; [apply (Ht Sample.qc Sample.tau); vm_compute; reflexivity |].
  apply (Ha Sample.alpha Sample.f). vm_compute. reflexivity.
Defined.

Lemma all_moment_orders_in_band_witness :
  _clean_q Cases.q_band = OK [] /\
  hurst_exponents Sample.log Sample.polyfit Sample.lag Sample.mfdfa
    Cases.q_band (None, None) 0 = Error ValueError_dimension /\
  hurst_exponents Sample.log Sample.polyfit Sample.lag Cases.no_column
    Cases.q_band (None, None) 0 = OK ([], []) /\
  singularity_spectrum Sample.log Sample.polyfit Sample.lag Cases.no_column
    Cases.q_band (None, None) 0 = Error ValueError_gradient.
Proof.
  pose proof (all_moment_orders_in_band Sample.log Sample.polyfit Sample.lag
                Sample.mfdfa Cases.q_band (None, None) 0%Z
                band_all_finite band_all_removed) as (Hq & Hcols & _).
  pose proof (all_moment_orders_in_band Sample.log Sample.polyfit Sample.lag
                Cases.no_column Cases.q_band (None, None) 0%Z
                band_all_finite band_all_removed) as (_ & _ & Hnone).
  split; [exact Hq |].
  split; [apply Hcols; discriminate |].
  destruct (Hnone eq_refl) as (Hh & _ & Hsp). auto.
Defined.

Lemma slopes_ignore_q_values_witness :
  _slopes Sample.log Sample.polyfit Sample.lag Sample.mfdfa Sample.q
    (None, None) 0
  = _slopes Sample.log Sample.polyfit Sample.lag Sample.mfdfa Cases.q_other
      (None, None) 0.
Proof.
  apply (slopes_ignore_q_values Sample.log Sample.polyfit Sample.lag
           Sample.mfdfa Sample.q Cases.q_other (None, None) 0%Z
           Sample.qc [5; 6; 7]%float).
  - exact sample_clean.
  - vm_compute. reflexivity.
  - reflexivity.
Defined.

